(** * mailer-service: a model of [index.js] and its specification

    The service is an Express application with three routes
    ([POST /send-email], [POST /preview-email], [GET /emails]).  The routes
    talk to three outside services: an object store (S3), a mail provider
    (SendGrid) and a document store (MongoDB).  The handlers are embedded
    as functions over explicit JavaScript values; the outside services are
    oracles gathered in a [World] record, and every call to one of them is
    recorded in a trace of [Event]s.

    Strings are sequences of characters; the model uses [ascii], so it
    speaks about ASCII text. *)

From Stdlib Require Import String Ascii List NArith ZArith Lia Bool Arith.
From Stdlib Require Import Permutation Sorted FinFun.
From Stdlib Require Import DecimalString DecimalNat.
Import ListNotations.
#[local] Set Warnings "-register-all".
Local Open Scope string_scope.
Local Open Scope list_scope.

(* ------------------------------------------------------------------ *)
(** ** Text utilities *)

Module Text.

(** The double-quote character. *)
Definition dq : string := String (ascii_of_nat 34) EmptyString.

(** The line-feed character. *)
Definition lf : ascii := ascii_of_nat 10.

(** Membership of a character in a string. *)
Fixpoint mem (c : ascii) (s : string) : bool :=
  match s with
  | EmptyString => false
  | String d s' => Ascii.eqb c d || mem c s'
  end.

(** Number of positions of [s] at which [needle] starts. *)
Fixpoint occ (needle s : string) : nat :=
  (if prefix needle s then 1 else 0) +
  match s with
  | EmptyString => 0
  | String _ s' => occ needle s'
  end.

(** First and last character of a string. *)
Definition head_char (b : string) : option ascii :=
  match b with
  | EmptyString => None
  | String d _ => Some d
  end.

Fixpoint last_char (a : string) : option ascii :=
  match a with
  | EmptyString => None
  | String l EmptyString => Some l
  | String _ a' => last_char a'
  end.

(** The first character of [b], or the last character of [a], does
    not occur in [needle] (or there is no such character). *)
Definition foreign (needle : string) (c : option ascii) : bool :=
  match c with
  | None => true
  | Some d => negb (mem d needle)
  end.

Definition head_foreign (needle b : string) : bool :=
  foreign needle (head_char b).

Definition last_foreign (needle a : string) : bool :=
  foreign needle (last_char a).

(** [s.includes(needle)]. *)
Fixpoint includes (needle s : string) : bool :=
  prefix needle s ||
  match s with
  | EmptyString => false
  | String _ s' => includes needle s'
  end.

(** ASCII lower-casing of one character and of a string. *)
Definition lower (c : ascii) : ascii :=
  let n := nat_of_ascii c in
  if ((65 <=? n)%nat && (n <=? 90)%nat)%bool then ascii_of_nat (n + 32) else c.

Fixpoint lower_string (s : string) : string :=
  match s with
  | EmptyString => EmptyString
  | String c s' => String (lower c) (lower_string s')
  end.

Definition digit (c : ascii) : bool := mem c "0123456789".

(** [n] printed in decimal, as [`${n}`] does for a non-negative
    integer. *)
Definition dec (n : nat) : string :=
  NilEmpty.string_of_uint (Nat.to_uint n).

(** [s.split(sep)] for a one-character separator. *)
Fixpoint split (sep : ascii) (s : string) : list string :=
  match s with
  | EmptyString => [EmptyString]
  | String c s' =>
      if Ascii.eqb c sep then EmptyString :: split sep s'
      else match split sep s' with
           | [] => [String c EmptyString]
           | seg :: segs => String c seg :: segs
           end
  end.

(** [arr.pop()] on a non-empty array of strings: its last element. *)
Definition pop (segs : list string) : string := last segs EmptyString.

(** Length of the match of [/<[^>]*>/] at the start of [s], if there is
    one: a ['<'], the longest run of characters other than ['>'], and
    a ['>']. *)
Fixpoint gt_index (s : string) : option nat :=
  match s with
  | EmptyString => None
  | String c s' =>
      if Ascii.eqb c ">" then Some 0
      else option_map S (gt_index s')
  end.

Definition match_tag (s : string) : option nat :=
  match s with
  | String "<" s' => option_map (fun i => i + 2) (gt_index s')
  | _ => None
  end.

(** [s.replace(/<[^>]*>/g, '')]: scan from the left; where the pattern
    matches, drop the match and go on after it; elsewhere keep the
    character.  [skip] counts the characters of the current match that
    remain to be dropped. *)
Fixpoint replace_tags (skip : nat) (s : string) : string :=
  match s with
  | EmptyString => EmptyString
  | String c s' =>
      match skip with
      | S k => replace_tags k s'
      | O =>
          match match_tag s with
          | Some len => replace_tags (len - 1) s'
          | None => String c (replace_tags 0 s')
          end
      end
  end.

Definition strip_tags (s : string) : string := replace_tags 0 s.

(** The pattern matches somewhere in [s]. *)
Fixpoint has_tag (s : string) : bool :=
  match s with
  | EmptyString => false
  | String _ s' =>
      match match_tag s with
      | Some _ => true
      | None => has_tag s'
      end
  end.

(** [Buffer.toString('base64')]. *)
Definition b64_alphabet : string :=
  "ABCDEFGHIJKLMNOPQRSTUVWXYZabcdefghijklmnopqrstuvwxyz0123456789+/".

Definition b64_digit (n : N) : ascii :=
  match get (N.to_nat (n mod 64)) b64_alphabet with
  | Some c => c
  | None => "="%char
  end.

Fixpoint base64 (bytes : string) : string :=
  match bytes with
  | EmptyString => EmptyString
  | String a EmptyString =>
      let n := (N_of_ascii a * 65536)%N in
      String (b64_digit (n / 262144))
        (String (b64_digit (n / 4096)) "==")
  | String a (String b EmptyString) =>
      let n := (N_of_ascii a * 65536 + N_of_ascii b * 256)%N in
      String (b64_digit (n / 262144))
        (String (b64_digit (n / 4096))
           (String (b64_digit (n / 64)) "="))
  | String a (String b (String c rest)) =>
      let n := (N_of_ascii a * 65536 + N_of_ascii b * 256
                + N_of_ascii c)%N in
      String (b64_digit (n / 262144))
        (String (b64_digit (n / 4096))
           (String (b64_digit (n / 64))
              (String (b64_digit n) (base64 rest))))
  end.

(** [a] is what remains of [b] when some of its characters are
    dropped. *)
Fixpoint is_subseq (a b : string) : bool :=
  match b with
  | EmptyString =>
      match a with
      | EmptyString => true
      | String _ _ => false
      end
  | String d b' =>
      match a with
      | EmptyString => true
      | String c a' =>
          if Ascii.eqb c d then is_subseq a' b' else is_subseq a b'
      end
  end.

(** The characters of a base64 text. *)
Definition b64_char (c : ascii) : bool :=
  mem c b64_alphabet || Ascii.eqb c "=".

Fixpoint all_chars (p : ascii -> bool) (s : string) : bool :=
  match s with
  | EmptyString => true
  | String c s' => p c && all_chars p s'
  end.

End Text.

(* ------------------------------------------------------------------ *)
(** ** JavaScript values carried by a JSON request *)

Module Js.

(** A field of a parsed JSON body.  [JUndef] is an absent field.
    [JNum n] is a number written in the JSON text as the integer [n];
    numbers written with a fraction or an exponent are not modelled. *)
Inductive JsVal : Type :=
| JUndef
| JNull
| JBool (b : bool)
| JNum (n : Z)
| JStr (s : string)
| JArr (elems : list JsVal)
| JObj (fields : list (string * JsVal)).

(** [!!v]. *)
Definition truthy (v : JsVal) : bool :=
  match v with
  | JUndef | JNull => false
  | JBool b => b
  | JNum n => negb (n =? 0)%Z
  | JStr s => negb (String.eqb s EmptyString)
  | JArr _ | JObj _ => true
  end.

Definition falsy (v : JsVal) : bool := negb (truthy v).

Fixpoint has_key {A : Type} (k : string) (fields : list (string * A))
  : bool :=
  match fields with
  | [] => false
  | (k', _) :: rest => String.eqb k k' || has_key k rest
  end.

(** Numbers are doubles.  [to_double x] is the double nearest to the
    integer [x > 0], a tie going to the even significand of 53 bits:
    the value that [JSON.parse] gives to the literal. *)
Definition to_double (x : Z) : Z :=
  let e := Z.log2 x in
  if (e <=? 52)%Z then x
  else
    let sh := (e - 52)%Z in
    let q := Z.shiftr x sh in
    let r := (x - Z.shiftl q sh)%Z in
    let half := Z.shiftl 1 (sh - 1) in
    let up := ((half <? r)%Z || ((r =? half)%Z && Z.odd q))%bool in
    Z.shiftl (if up then q + 1 else q)%Z sh.

Definition digits (x : Z) : string :=
  NilZero.string_of_uint (N.to_uint (Z.to_N x)).

(** The decimal with the fewest significant digits that reads back as
    the double [d]: the multiple of the largest power of ten, at most
    [10^p], for which there is one; the nearest to [d] if there are
    two, and of two equally near the one with the even last digit. *)
Fixpoint shortest (d : Z) (p : nat) : Z :=
  match p with
  | O => d
  | S p' =>
      let u := (10 ^ Z.of_nat p)%Z in
      let lo := (d / u * u)%Z in
      let hi := (lo + u)%Z in
      let ok_lo := ((0 <? lo)%Z && (to_double lo =? d)%Z)%bool in
      let ok_hi := (to_double hi =? d)%Z in
      match ok_lo, ok_hi with
      | true, true =>
          if (d - lo <? hi - d)%Z then lo
          else if (hi - d <? d - lo)%Z then hi
          else if Z.even (d / u) then lo else hi
      | true, false => lo
      | false, true => hi
      | false, false => shortest d p'
      end
  end.

Fixpoint strip_zeros (ds : list ascii) : list ascii :=
  match ds with
  | [] => []
  | c :: rest =>
      match strip_zeros rest with
      | [] => if Ascii.eqb c "0" then [] else [c]
      | rest' => c :: rest'
      end
  end.

(** [`${x}`] for a positive integer literal [x]: all the digits of the
    shortest decimal below 10^21, the exponent notation from there on,
    [Infinity] beyond the range of doubles. *)
Definition positive_to_string (x : Z) : string :=
  let d := to_double x in
  if (2 ^ 1024 <=? d)%Z then "Infinity"
  else
    let ds := digits (shortest d (String.length (digits d))) in
    let n := String.length ds in
    if (n <=? 21)%nat then ds
    else
      match strip_zeros (list_ascii_of_string ds) with
      | [] => ds
      | [c] => String c ("e+" ++ Text.dec (n - 1))%string
      | c :: rest =>
          String c ("." ++ string_of_list_ascii rest ++ "e+"
                    ++ Text.dec (n - 1))%string
      end.

Definition num_to_string (n : Z) : string :=
  match n with
  | Z0 => "0"
  | Zpos _ => positive_to_string n
  | Zneg _ => ("-" ++ positive_to_string (- n))%string
  end.

(** [`${v}`], the ToString conversion of a template literal.  [None]
    is the TypeError raised for an object that cannot be converted: a
    parsed JSON object that carries its own [toString] key hides
    [Object.prototype.toString] behind a value that is not callable. *)
Fixpoint to_string (v : JsVal) : option string :=
  match v with
  | JUndef => Some "undefined"
  | JNull => Some "null"
  | JBool true => Some "true"
  | JBool false => Some "false"
  | JNum n => Some (num_to_string n)
  | JStr s => Some s
  | JArr elems =>
      (fix join (l : list JsVal) : option string :=
         match l with
         | [] => Some EmptyString
         | x :: rest =>
             let sx := match x with
                       | JUndef | JNull => Some EmptyString
                       | _ => to_string x
                       end in
             match rest with
             | [] => sx
             | _ :: _ =>
                 match sx, join rest with
                 | Some a, Some b => Some (a ++ "," ++ b)%string
                 | _, _ => None
                 end
             end
         end) elems
  | JObj fields =>
      if has_key "toString" fields then None
      else Some "[object Object]"
  end.

(** A thrown value, as the handlers read it: [error.message] and, when
    [error.response] is set, [error.response.body]. *)
Record JsError : Type := mkError {
  message : string;
  response_body : option JsVal
}.

Definition TypeError (msg : string) : JsError := mkError msg None.

Inductive Result (A : Type) : Type :=
| Ok (a : A)
| Throw (e : JsError).
Arguments Ok {A} a.
Arguments Throw {A} e.

End Js.
Import Js.

(* ------------------------------------------------------------------ *)
(** ** generateHTMLEmail *)

Module Render.
Import Text.

Definition image_block (cid : string) : string :=
  ("<div class=" ++ dq ++ "image-container" ++ dq ++ "><img src=" ++ dq
   ++ "cid:" ++ cid ++ dq ++ " alt=" ++ dq ++ "Embedded Image" ++ dq
   ++ " style=" ++ dq ++ "max-width: 100%;" ++ dq ++ "></div>")%string.

(** The reference [cid:<id>], and the attribute value that
    [image_block] writes for it, between its quotes. *)
Definition cid_ref (id : string) : string := ("cid:" ++ id)%string.

Definition src_value (id : string) : string :=
  (dq ++ cid_ref id ++ dq)%string.

(** What [image_block] writes before and after the attribute value. *)
Definition block_pre : string :=
  ("<div class=" ++ dq ++ "image-container" ++ dq ++ "><img src=")%string.

Definition block_post : string :=
  (" alt=" ++ dq ++ "Embedded Image" ++ dq ++ " style=" ++ dq
   ++ "max-width: 100%;" ++ dq ++ "></div>")%string.

(** The [forEach] loop: [imageHtml += ...] for each content-id. *)
Definition imageHtml (embeddedImageCids : list string) : string :=
  fold_left (fun acc cid => (acc ++ image_block cid)%string)
    embeddedImageCids EmptyString.

Definition tpl_head : string :=
  "
    <!DOCTYPE html>
    <html lang=" ++ dq ++ "en" ++ dq ++ ">
    <head>
      <meta charset=" ++ dq ++ "UTF-8" ++ dq ++ ">
      <meta name=" ++ dq ++ "viewport" ++ dq ++ " content=" ++ dq ++ "width=device-width, initial-scale=1.0" ++ dq ++ ">
      <title>".

Definition tpl_title_to_h1 : string :=
  "</title>
      <style>
        body {
          font-family: Arial, sans-serif;
          line-height: 1.6;
          color: #333;
          max-width: 600px;
          margin: 0 auto;
          padding: 20px;
        }
        .header {
          border-bottom: 2px solid #f0f0f0;
          padding-bottom: 15px;
          margin-bottom: 20px;
        }
        h1 {
          color: #2c3e50;
          margin-top: 0;
        }
        .content {
          margin-bottom: 30px;
        }
        .image-container {
          margin: 20px 0;
        }
        .footer {
          border-top: 1px solid #f0f0f0;
          padding-top: 15px;
          font-size: 12px;
          color: #777;
        }
      </style>
    </head>
    <body>
      <div class=" ++ dq ++ "header" ++ dq ++ ">
        <h1>".

Definition tpl_h1_to_content : string :=
  "</h1>
      </div>
      <div class=" ++ dq ++ "content" ++ dq ++ ">
        ".

Definition tpl_content_to_images : string :=
  "
      </div>
      ".

Definition tpl_tail : string :=
  "
      <div class=" ++ dq ++ "footer" ++ dq ++ ">
        <p>This email was sent automatically. Please do not reply directly to this message.</p>
      </div>
    </body>
    </html>
  ".



(** The template literal, once its four holes are filled. *)
Definition template (subject body images : string) : string :=
  (tpl_head ++ subject ++ tpl_title_to_h1 ++ subject
   ++ tpl_h1_to_content ++ body ++ tpl_content_to_images ++ images
   ++ tpl_tail)%string.

(** [generateHTMLEmail(subject, body, embeddedImageCids)].  [None] is
    the TypeError of a failed ToString. *)
Definition generateHTMLEmail (subject body : JsVal)
    (embeddedImageCids : list string) : option string :=
  let images := imageHtml embeddedImageCids in
  match to_string subject, to_string body with
  | Some s, Some b => Some (template s b images)
  | _, _ => None
  end.

(** What the template asks of a needle for its occurrences to be
    counted hole by hole: it has none of the characters that border
    the holes, and it does not occur in the fixed text. *)
Record hole_safe (n : string) : Prop := mkHoleSafe {
  safe_nonempty : n <> EmptyString;
  safe_lt : mem "<" n = false;
  safe_gt : mem ">" n = false;
  safe_space : mem " " n = false;
  safe_lf : mem lf n = false;
  safe_head : occ n tpl_head = 0;
  safe_title : occ n tpl_title_to_h1 = 0;
  safe_h1 : occ n tpl_h1_to_content = 0;
  safe_content : occ n tpl_content_to_images = 0;
  safe_tail : occ n tpl_tail = 0
}.

(** The attribute value of a numbered content-id. *)
Definition numbered (prefix_ : string) (k : nat) : string :=
  src_value (prefix_ ++ dec k).

(** The same loop, one iteration at a time: a configuration is the
    list of content-ids still to visit and the value of [imageHtml]. *)
Inductive loop_step : list string * string -> list string * string -> Prop :=
| step_cid : forall cid rest acc,
    loop_step (cid :: rest, acc) (rest, (acc ++ image_block cid)%string).

Inductive loop_run : list string * string -> string -> Prop :=
| run_done : forall acc, loop_run ([], acc) acc
| run_step : forall c c' out,
    loop_step c c' -> loop_run c' out -> loop_run c out.

(** One call of the function, as a relation between arguments and
    outcome. *)
Inductive call : JsVal -> JsVal -> list string -> option string -> Prop :=
| call_returns : forall subject body cids images s b,
    loop_run (cids, EmptyString) images ->
    to_string subject = Some s ->
    to_string body = Some b ->
    call subject body cids (Some (template s b images))
| call_throws : forall subject body cids images,
    loop_run (cids, EmptyString) images ->
    to_string subject = None \/ to_string body = None ->
    call subject body cids None.

End Render.

(* ------------------------------------------------------------------ *)
(** ** Messages, log entries, the outside world *)

Module Mail.

(** One element of [msg.attachments]. *)
Record Part : Type := mkPart {
  content : string;               (* base64 text *)
  part_filename : string;
  type : option string;
  disposition : string;
  content_id : option string
}.

(** The object handed to [sgMail.send]. *)
Record Msg : Type := mkMsg {
  msg_to : JsVal;
  from : JsVal;
  msg_subject : JsVal;
  msg_attachments : list Part;
  html : JsVal;
  text : JsVal
}.

(** Elements of [embeddedImageLogs] and of [attachmentLogs]. *)
Record ImageLog : Type := mkImageLog {
  cid : string;
  image_filename : string;
  image_s3Key : string;
  image_contentType : option string;
  image_size : nat
}.

Record AttachmentLog : Type := mkAttachmentLog {
  filename : string;
  s3Key : string;
  contentType : option string;
  size : nat
}.

(** The object handed to [EmailLog.create]. *)
Record LogEntry : Type := mkLogEntry {
  to : JsVal;
  subject : JsVal;
  body : JsVal;
  htmlBody : JsVal;
  embeddedImages : list ImageLog;
  attachments : list AttachmentLog
}.

(** What [s3.getObject] resolves to: [data.Body], [data.ContentType]. *)
Record S3Object : Type := mkS3Object {
  Body : string;
  ContentType : option string
}.

(** The services the handler calls.  Each oracle answers a call with a
    value or with the error the call is rejected with; the answers do
    not change in the course of one request. *)
Record World : Type := mkWorld {
  SENDGRID_FROM_EMAIL : JsVal;
  s3_getObject : JsVal -> Result S3Object;
  sgMail_send : Msg -> Result unit;
  EmailLog_create : LogEntry -> Result unit
}.

(** A call to an outside service, with its outcome. *)
Inductive Event : Type :=
| EvFetch (key : JsVal) (ok : bool)
| EvSend (m : Msg) (ok : bool)
| EvLog (entry : LogEntry) (ok : bool).

Definition is_ok {A : Type} (r : Result A) : bool :=
  match r with Ok _ => true | Throw _ => false end.

Definition is_fetch (e : Event) : bool :=
  match e with EvFetch _ _ => true | _ => false end.

Definition is_send (e : Event) : bool :=
  match e with EvSend _ _ => true | _ => false end.

Definition is_log (e : Event) : bool :=
  match e with EvLog _ _ => true | _ => false end.

(** A stored [EmailLog] document, with the fields of the schema. *)
Record EmailDoc : Type := mkEmailDoc {
  doc_to : string;
  doc_subject : string;
  doc_body : string;
  doc_htmlBody : string;
  doc_embeddedImages : list ImageLog;
  doc_attachments : list AttachmentLog;
  timestamp : Z
}.

(** An HTTP response: status and the value given to [res.json], or the
    documents of a query, or an error left to the framework. *)
Inductive Payload : Type :=
| PJson (v : JsVal)
| PDocs (docs : list EmailDoc)
| PUncaught (e : JsError).

Record Response : Type := mkResponse {
  status : nat;
  payload : Payload
}.

End Mail.
Import Mail.

(* ------------------------------------------------------------------ *)
(** ** An exception-and-trace monad for the asynchronous handler *)

Module Eff.

(** A computation extends the trace of calls made so far and either
    returns or throws. *)
Definition M (A : Type) : Type := list Event -> Result A * list Event.

Definition ret {A : Type} (a : A) : M A := fun tr => (Ok a, tr).

Definition throw {A : Type} (e : JsError) : M A := fun tr => (Throw e, tr).

Definition bind {A B : Type} (m : M A) (k : A -> M B) : M B :=
  fun tr =>
    match m tr with
    | (Ok a, tr') => k a tr'
    | (Throw e, tr') => (Throw e, tr')
    end.

(** [try { m } catch (error) { h error }]. *)
Definition try_catch {A : Type} (m : M A) (h : JsError -> M A) : M A :=
  fun tr =>
    match m tr with
    | (Ok a, tr') => (Ok a, tr')
    | (Throw e, tr') => h e tr'
    end.

(** [await] of a call to an outside service: the call is recorded, and
    its rejection becomes a throw. *)
Definition await {A : Type} (r : Result A) (ev : bool -> Event) : M A :=
  fun tr => (r, tr ++ [ev (is_ok r)]).

Definition of_option {A : Type} (o : option A) (e : JsError) : M A :=
  match o with
  | Some a => ret a
  | None => throw e
  end.

End Eff.
Import Eff.

Declare Scope eff_scope.
Delimit Scope eff_scope with eff.
Notation "x <- m ;; k" := (bind m (fun x => k))
  (at level 61, m at next level, right associativity) : eff_scope.
Notation "m ;;; k" := (bind m (fun _ => k))
  (at level 61, right associativity) : eff_scope.

(* ------------------------------------------------------------------ *)
(** ** POST /send-email *)

Module SendEmail.
Import Text Render.
Local Open Scope eff_scope.

(** The destructured request body.  The two key lists are modelled
    when they are absent ([None]) or arrays; [useHtmlTemplate] is the
    raw field, [JUndef] when absent. *)
Record Request : Type := mkRequest {
  req_to : JsVal;
  req_subject : JsVal;
  req_body : JsVal;
  attachmentKeys : option (list JsVal);
  embeddedImageKeys : option (list JsVal);
  req_useHtmlTemplate : JsVal
}.

(** The default [useHtmlTemplate = true] of the destructuring. *)
Definition useHtmlTemplate (req : Request) : JsVal :=
  match req_useHtmlTemplate req with
  | JUndef => JBool true
  | v => v
  end.

(** [getFileFromS3(key)]: one [getObject]; an error is logged and
    thrown again. *)
Definition getFileFromS3 (w : World) (key : JsVal) : M S3Object :=
  await (s3_getObject w key) (EvFetch key).

(** [key.split('/').pop()]; a key that is not a string has no
    [split]. *)
Definition key_filename (key : JsVal) : M (string * string) :=
  match key with
  | JStr k => ret (k, pop (split "/" k))
  | JUndef =>
      throw (TypeError "Cannot read properties of undefined (reading 'split')")
  | JNull =>
      throw (TypeError "Cannot read properties of null (reading 'split')")
  | _ => throw (TypeError "key.split is not a function")
  end.

(** The arrays the handler fills with [push]. *)
Record Locals : Type := mkLocals {
  parts : list Part;                    (* msg.attachments *)
  embeddedImageCids : list string;
  embeddedImageLogs : list ImageLog;
  attachmentLogs : list AttachmentLog
}.

Definition no_locals : Locals := mkLocals [] [] [] [].

(** Body of the loop over [embeddedImageKeys], at index [i]. *)
Definition embed_one (w : World) (i : nat) (key : JsVal) (st : Locals)
  : M Locals :=
  file <- getFileFromS3 w key ;;
  kf <- key_filename key ;;
  let '(k, filename) := kf in
  let cid := ("image-" ++ dec (i + 1))%string in
  ret (mkLocals
         (parts st ++
            [mkPart (base64 (Body file)) filename (ContentType file)
               "inline" (Some cid)])
         (embeddedImageCids st ++ [cid])
         (embeddedImageLogs st ++
            [mkImageLog cid filename k (ContentType file)
               (String.length (Body file))])
         (attachmentLogs st)).

Fixpoint embed_loop (w : World) (keys : list JsVal) (i : nat)
    (st : Locals) : M Locals :=
  match keys with
  | [] => ret st
  | key :: rest =>
      st' <- embed_one w i key st ;;
      embed_loop w rest (S i) st'
  end.

(** Body of the loop over [attachmentKeys]. *)
Definition attach_one (w : World) (key : JsVal) (st : Locals)
  : M Locals :=
  file <- getFileFromS3 w key ;;
  kf <- key_filename key ;;
  let '(k, filename) := kf in
  ret (mkLocals
         (parts st ++
            [mkPart (base64 (Body file)) filename (ContentType file)
               "attachment" None])
         (embeddedImageCids st)
         (embeddedImageLogs st)
         (attachmentLogs st ++
            [mkAttachmentLog filename k (ContentType file)
               (String.length (Body file))])).

Fixpoint attach_loop (w : World) (keys : list JsVal) (st : Locals)
  : M Locals :=
  match keys with
  | [] => ret st
  | key :: rest =>
      st' <- attach_one w key st ;;
      attach_loop w rest st'
  end.

Definition keys_of (field : option (list JsVal)) : list JsVal :=
  match field with
  | Some keys => keys
  | None => []
  end.

(** [body.replace(/<[^>]*>/g, '')]; only a string has [replace]. *)
Definition body_replace (body : JsVal) : M string :=
  match body with
  | JStr b => ret (strip_tags b)
  | _ => throw (TypeError "body.replace is not a function")
  end.

(** [msg.html] and [msg.text]. *)
Definition html_and_text (req : Request) (cids : list string)
  : M (JsVal * JsVal) :=
  if truthy (useHtmlTemplate req) then
    htmlContent <- of_option
      (generateHTMLEmail (req_subject req) (req_body req) cids)
      (TypeError "Cannot convert object to primitive value") ;;
    ret (JStr htmlContent, req_body req)
  else
    stripped <- body_replace (req_body req) ;;
    ret (req_body req, JStr stripped).

Definition success (req : Request) : Response :=
  mkResponse 200
    (PJson (JObj [("message", JStr "Email sent successfully");
                  ("htmlGenerated", useHtmlTemplate req)])).

Definition failure (error : JsError) : Response :=
  mkResponse 500
    (PJson (JObj [("message", JStr "Failed to send email");
                  ("error", match response_body error with
                            | Some b => b
                            | None => JStr (message error)
                            end)])).

Definition missing_fields : Response :=
  mkResponse 400
    (PJson (JObj [("message",
                   JStr "Missing required fields: to, subject, body")])).

(** The [try] block up to the call of the mail provider: the message,
    and the object later given to [EmailLog.create]. *)
Definition compose (w : World) (req : Request) : M (Msg * LogEntry) :=
  st1 <- embed_loop w (keys_of (embeddedImageKeys req)) 0 no_locals ;;
  ht <- html_and_text req (embeddedImageCids st1) ;;
  let plainTextContent := req_body req in
  st2 <- attach_loop w (keys_of (attachmentKeys req)) st1 ;;
  let msg := mkMsg (req_to req) (SENDGRID_FROM_EMAIL w) (req_subject req)
               (parts st2) (fst ht) (snd ht) in
  let entry := mkLogEntry (req_to req) (req_subject req) plainTextContent
                 (html msg) (embeddedImageLogs st2) (attachmentLogs st2) in
  ret (msg, entry).

(** The body of the [try] block. *)
Definition try_block (w : World) (req : Request) : M Response :=
  me <- compose w req ;;
  await (sgMail_send w (fst me)) (EvSend (fst me)) ;;;
  await (EmailLog_create w (snd me)) (EvLog (snd me)) ;;;
  ret (success req).

(** The handler. *)
Definition handler (w : World) (req : Request) : M Response :=
  if negb (truthy (req_to req)) || negb (truthy (req_subject req))
     || negb (truthy (req_body req))
  then ret missing_fields
  else try_catch (try_block w req) (fun error => ret (failure error)).

(** One request against a world: the response and the calls made. *)
Definition send_email (w : World) (req : Request)
  : option Response * list Event :=
  match handler w req [] with
  | (Ok res, tr) => (Some res, tr)
  | (Throw _, tr) => (None, tr)
  end.

(** *** Vocabulary for the properties of the handler *)

(** The content-ids [image-1 .. image-n]. *)
Definition image_ids (n : nat) : list string :=
  map (fun k => ("image-" ++ dec k)%string) (seq 1 n).

(** Successful fetches of the given keys, in order. *)
Definition fetched (keys : list JsVal) : list Event :=
  map (fun k => EvFetch k true) keys.

Definition all_keys (req : Request) : list JsVal :=
  keys_of (embeddedImageKeys req) ++ keys_of (attachmentKeys req).

Definition valid (req : Request) : bool :=
  truthy (req_to req) && truthy (req_subject req) && truthy (req_body req).

(** A key whose fetch and whose [split] both succeed. *)
Definition good_key (w : World) (k : JsVal) : Prop :=
  exists file s, s3_getObject w k = Ok file /\ k = JStr s.

(** The two ways the fetching of keys breaks off with error [e],
    taking the trace from [tr] to [tr']: by a TypeError after some
    fetches, or by a fetch that fails. *)
Definition broken (w : World) (keys : list JsVal) (e : JsError)
    (tr tr' : list Event) : Prop :=
  exists done,
    tr' = tr ++ fetched done
    \/ exists k, In k keys /\ s3_getObject w k = Throw e
                 /\ tr' = tr ++ fetched done ++ [EvFetch k false].

(** How a message and a log entry relate to the request they were
    composed from. *)
Record composed (w : World) (req : Request) (m : Msg) (entry : LogEntry)
  : Prop := mkComposed {
  c_keys : Forall (good_key w) (all_keys req);
  c_to : msg_to m = req_to req;
  c_from : from m = SENDGRID_FROM_EMAIL w;
  c_subject : msg_subject m = req_subject req;
  c_content :
    if truthy (useHtmlTemplate req) then
      exists h,
        generateHTMLEmail (req_subject req) (req_body req)
          (image_ids (List.length (keys_of (embeddedImageKeys req))))
        = Some h
        /\ html m = JStr h /\ text m = req_body req
    else
      exists b,
        req_body req = JStr b /\ html m = JStr b
        /\ text m = JStr (strip_tags b);
  c_parts :
    map content_id (msg_attachments m)
    = map Some (image_ids (List.length (keys_of (embeddedImageKeys req))))
      ++ repeat None (List.length (keys_of (attachmentKeys req)));
  c_log_to : to entry = req_to req;
  c_log_subject : subject entry = req_subject req;
  c_log_body : body entry = req_body req;
  c_log_html : htmlBody entry = html m;
  c_log_cids :
    map cid (embeddedImages entry)
    = image_ids (List.length (keys_of (embeddedImageKeys req)));
  c_log_image_keys :
    map (fun l => JStr (image_s3Key l)) (embeddedImages entry)
    = keys_of (embeddedImageKeys req);
  c_log_attachment_keys :
    map (fun l => JStr (s3Key l)) (attachments entry)
    = keys_of (attachmentKeys req)
}.

(** No event of the trace is a delivery or a log write. *)
Definition quiet (tr : list Event) : Prop :=
  forall e, In e tr -> is_send e = false /\ is_log e = false.

(** The ways one request can go. *)
Inductive Outcome (w : World) (req : Request)
  : option Response -> list Event -> Prop :=
| rejected :
    valid req = false ->
    Outcome w req (Some missing_fields) []
| fetch_failed : forall keys key error,
    valid req = true ->
    In key (all_keys req) ->
    s3_getObject w key = Throw error ->
    Outcome w req (Some (failure error))
      (fetched keys ++ [EvFetch key false])
| type_error : forall keys error,
    valid req = true ->
    Outcome w req (Some (failure error)) (fetched keys)
| send_failed : forall m entry error,
    valid req = true ->
    composed w req m entry ->
    sgMail_send w m = Throw error ->
    Outcome w req (Some (failure error))
      (fetched (all_keys req) ++ [EvSend m false])
| log_failed : forall m entry error,
    valid req = true ->
    composed w req m entry ->
    sgMail_send w m = Ok tt ->
    EmailLog_create w entry = Throw error ->
    Outcome w req (Some (failure error))
      (fetched (all_keys req) ++ [EvSend m true; EvLog entry false])
| sent_and_logged : forall m entry,
    valid req = true ->
    composed w req m entry ->
    sgMail_send w m = Ok tt ->
    EmailLog_create w entry = Ok tt ->
    Outcome w req (Some (success req))
      (fetched (all_keys req) ++ [EvSend m true; EvLog entry true]).

(** *** The calls of a trace, service by service *)

Definition fetches (tr : list Event) : list (JsVal * bool) :=
  flat_map (fun e => match e with
                     | EvFetch k ok => [(k, ok)]
                     | _ => []
                     end) tr.

Definition deliveries (tr : list Event) : list (Msg * bool) :=
  flat_map (fun e => match e with
                     | EvSend m ok => [(m, ok)]
                     | _ => []
                     end) tr.

Definition log_writes (tr : list Event) : list (LogEntry * bool) :=
  flat_map (fun e => match e with
                     | EvLog entry ok => [(entry, ok)]
                     | _ => []
                     end) tr.

(** The inline parts and the log records that the keys of
    [embeddedImageKeys] give rise to, from index [i] on: one of each per
    key, made from the object the store holds for the key. *)
Inductive embedded (w : World)
  : nat -> list JsVal -> list Part -> list ImageLog -> Prop :=
| embedded_nil : forall i, embedded w i [] [] []
| embedded_cons : forall i k file keys ps ls,
    s3_getObject w (JStr k) = Ok file ->
    embedded w (S i) keys ps ls ->
    embedded w i (JStr k :: keys)
      (mkPart (base64 (Body file)) (pop (split "/" k)) (ContentType file)
         "inline" (Some ("image-" ++ dec (i + 1))%string) :: ps)
      (mkImageLog ("image-" ++ dec (i + 1))%string (pop (split "/" k)) k
         (ContentType file) (String.length (Body file)) :: ls).

(** The same for the keys of [attachmentKeys]. *)
Inductive attached (w : World)
  : list JsVal -> list Part -> list AttachmentLog -> Prop :=
| attached_nil : attached w [] [] []
| attached_cons : forall k file keys ps ls,
    s3_getObject w (JStr k) = Ok file ->
    attached w keys ps ls ->
    attached w (JStr k :: keys)
      (mkPart (base64 (Body file)) (pop (split "/" k)) (ContentType file)
         "attachment" None :: ps)
      (mkAttachmentLog (pop (split "/" k)) k (ContentType file)
         (String.length (Body file)) :: ls).

(** A run over [keys] that stops with error [e], taking the trace from
    [tr] to [tr']: the keys of [done] were fetched, in order; then
    either an exception was raised without a further call, or the
    fetch of the next key failed. *)
Definition stopped (w : World) (keys : list JsVal) (e : JsError)
    (tr tr' : list Event) : Prop :=
  exists done rest,
    keys = done ++ rest
    /\ (tr' = tr ++ fetched done
        \/ exists k rest',
             rest = k :: rest' /\ s3_getObject w k = Throw e
             /\ tr' = tr ++ fetched done ++ [EvFetch k false]).

(** What follows composition: the delivery, and the log write if the
    delivery succeeded. *)
Definition finish (w : World) (req : Request) (m : Msg) (entry : LogEntry)
  : Response * list Event :=
  match sgMail_send w m with
  | Throw e => (failure e, [EvSend m false])
  | Ok _ =>
      match EmailLog_create w entry with
      | Throw e => (failure e, [EvSend m true; EvLog entry false])
      | Ok _ => (success req, [EvSend m true; EvLog entry true])
      end
  end.

(** *** Which keys a request has fetched *)

Definition is_string (v : JsVal) : bool :=
  match v with JStr _ => true | _ => false end.

(** A key the loops get past: the store gives its object, and the key
    has a [split]. *)
Definition usable (w : World) (k : JsVal) : bool :=
  is_ok (s3_getObject w k) && is_string k.

(** One fetch per key, in order, up to and including the first key
    that is not usable. *)
Fixpoint fetch_until (w : World) (keys : list JsVal)
  : list (JsVal * bool) :=
  match keys with
  | [] => []
  | k :: rest =>
      (k, is_ok (s3_getObject w k))
      :: (if usable w k then fetch_until w rest else [])
  end.

(** [msg.html] and [msg.text] can be built: under the template the
    subject and the body convert to text, without it the body is a
    string. *)
Definition content_ok (req : Request) : bool :=
  if truthy (useHtmlTemplate req) then
    match to_string (req_subject req), to_string (req_body req) with
    | Some _, Some _ => true
    | _, _ => false
    end
  else is_string (req_body req).

(** The keys a request that passes validation sets out to fetch: the
    attachments come after the content of the message. *)
Definition keys_in_turn (req : Request) : list JsVal :=
  keys_of (embeddedImageKeys req)
  ++ (if content_ok req then keys_of (attachmentKeys req) else []).

End SendEmail.

(* ------------------------------------------------------------------ *)
(** ** POST /preview-email *)

Module PreviewEmail.
Import Text Render.

(** The destructured request body; [embeddedImageCount] is modelled
    when it is absent or an integer, one that the loop can count up to
    before [dummyCids] is as long as an array can be. *)
Record Request : Type := mkRequest {
  req_subject : JsVal;
  req_body : JsVal;
  embeddedImageCount : option Z
}.

(** [for (let i = 0; i < (embeddedImageCount || 0); i++)
      dummyCids.push(`preview-image-${i+1}`)]. *)
Definition dummyCids (count : option Z) : list string :=
  map (fun i => ("preview-image-" ++ dec (i + 1))%string)
    (seq 0 (Z.to_nat (match count with Some n => n | None => 0%Z end))).

Definition missing_fields : Response :=
  mkResponse 400
    (PJson (JObj [("message",
                   JStr "Missing required fields: subject, body")])).

(** The handler is synchronous and has no [try]: an exception goes to
    the framework, which answers 500. *)
Definition preview_email (req : Request) : Response :=
  if negb (truthy (req_subject req)) || negb (truthy (req_body req))
  then missing_fields
  else
    match generateHTMLEmail (req_subject req) (req_body req)
            (dummyCids (embeddedImageCount req)) with
    | Some html => mkResponse 200 (PJson (JObj [("html", JStr html)]))
    | None =>
        mkResponse 500
          (PUncaught (TypeError "Cannot convert object to primitive value"))
    end.

End PreviewEmail.

(* ------------------------------------------------------------------ *)
(** ** The store's regular expressions *)

Module Regex.
Import Text.

(** [$regex] hands the pattern to the store's PCRE engine.  The model
    covers the patterns built from three kinds of item: a character
    with no special meaning, which stands for itself; a dot, which
    stands for any character but a line feed; and a backslash before a
    punctuation character, which stands for that character.  Any other
    pattern is outside the model. *)
Inductive Atom : Type :=
| ALit (c : ascii)
| AAny.

(** Characters that are, or may be, operators of the pattern
    language. *)
Definition reserved (c : ascii) : bool := mem c "\^$.[]|()?*+{}".

(** ASCII punctuation: printable, not a letter, not a digit, not a
    space. *)
Definition punctuation (c : ascii) : bool :=
  let n := nat_of_ascii c in
  ((33 <=? n)%nat && (n <=? 47)%nat) || ((58 <=? n)%nat && (n <=? 64)%nat)
  || ((91 <=? n)%nat && (n <=? 96)%nat)
  || ((123 <=? n)%nat && (n <=? 126)%nat).

Fixpoint parse (pattern : string) : option (list Atom) :=
  match pattern with
  | EmptyString => Some []
  | String c rest =>
      if Ascii.eqb c "." then option_map (cons AAny) (parse rest)
      else if Ascii.eqb c "\" then
        match rest with
        | String e rest' =>
            if punctuation e then option_map (cons (ALit e)) (parse rest')
            else None
        | EmptyString => None
        end
      else if reserved c then None
      else option_map (cons (ALit c)) (parse rest)
  end.

(** One item against one character, under the option [i]. *)
Definition atom_matches (a : Atom) (c : ascii) : bool :=
  match a with
  | ALit l => Ascii.eqb (lower l) (lower c)
  | AAny => negb (Ascii.eqb c lf)
  end.

(** The items match at the start of [s]. *)
Fixpoint match_here (atoms : list Atom) (s : string) : bool :=
  match atoms, s with
  | [], _ => true
  | a :: atoms', String c s' => atom_matches a c && match_here atoms' s'
  | _ :: _, EmptyString => false
  end.

(** They match somewhere in [s]: the pattern is not anchored. *)
Fixpoint search (atoms : list Atom) (s : string) : bool :=
  match_here atoms s ||
  match s with
  | EmptyString => false
  | String _ s' => search atoms s'
  end.

(** Patterns without any operator, and the items they stand for. *)
Fixpoint plain (pattern : string) : bool :=
  match pattern with
  | EmptyString => true
  | String c rest => negb (reserved c) && plain rest
  end.

Fixpoint literals (pattern : string) : list Atom :=
  match pattern with
  | EmptyString => []
  | String c rest => ALit c :: literals rest
  end.

End Regex.

(* ------------------------------------------------------------------ *)
(** ** GET /emails *)

Module Emails.
Import Text Regex.

(** The filter given to [EmailLog.find]: [{}], or the [$or] of one
    [$regex] with [$options: 'i'] per field. *)
Inductive Query : Type :=
| QAll
| QOr (to_regex subject_regex body_regex : string).

(** [req.query.search] is modelled when it is absent or a string. *)
Definition build_query (search : option string) : Query :=
  match search with
  | Some q => if truthy (JStr q) then QOr q q q else QAll
  | None => QAll
  end.

(** The filter as a test on documents; [None] when a pattern is
    outside the model. *)
Definition compile (query : Query) : option (EmailDoc -> bool) :=
  match query with
  | QAll => Some (fun _ => true)
  | QOr rt rs rb =>
      match parse rt, parse rs, parse rb with
      | Some at_, Some as_, Some ab =>
          Some (fun d => search at_ (doc_to d) || search as_ (doc_subject d)
                         || search ab (doc_body d))
      | _, _, _ => None
      end
  end.

(** [EmailLog.find(query)] on a readable collection. *)
Definition find (query : Query) (docs : list EmailDoc)
  : option (list EmailDoc) :=
  option_map (fun test => filter test docs) (compile query).

(** [.sort({ timestamp: -1 })]: newest first.  The order the store
    gives to documents of equal timestamp is its own; the model keeps
    their stored order. *)
Fixpoint insert_desc (d : EmailDoc) (sorted : list EmailDoc)
  : list EmailDoc :=
  match sorted with
  | [] => [d]
  | x :: rest =>
      if (timestamp x <=? timestamp d)%Z then d :: x :: rest
      else x :: insert_desc d rest
  end.

Fixpoint sort_desc (docs : list EmailDoc) : list EmailDoc :=
  match docs with
  | [] => []
  | d :: rest => insert_desc d (sort_desc rest)
  end.

Definition failure (error : JsError) : Response :=
  mkResponse 500
    (PJson (JObj [("message", JStr "Failed to fetch emails");
                  ("error", JStr (message error))])).

(** The handler.  [collection] is what reading the collection gives:
    its documents, or the error the store rejects the query with.
    The answer is [None] when the pattern is outside the model. *)
Definition emails (collection : Result (list EmailDoc))
    (search : option string) : option Response :=
  let query := build_query search in
  match collection with
  | Throw error => Some (failure error)
  | Ok docs =>
      match find query docs with
      | Some found => Some (mkResponse 200 (PDocs (sort_desc found)))
      | None => None
      end
  end.

(** The handler over any regular-expression engine.  An engine takes
    a pattern, under the option [i], to the test it stands for on the
    value of a field, or to the error the store rejects the query
    with when it refuses the pattern. *)
Definition Engine : Type := string -> Result (string -> bool).

Definition compile_with (engine : Engine) (query : Query)
  : Result (EmailDoc -> bool) :=
  match query with
  | QAll => Ok (fun _ => true)
  | QOr rt rs rb =>
      match engine rt, engine rs, engine rb with
      | Ok mt, Ok ms, Ok mb =>
          Ok (fun d => mt (doc_to d) || ms (doc_subject d)
                       || mb (doc_body d))
      | Throw error, _, _ => Throw error
      | _, Throw error, _ => Throw error
      | _, _, Throw error => Throw error
      end
  end.

(** [await EmailLog.find(query).sort({ timestamp: -1 })] inside the
    [try]: the documents go to [res.json], a rejection to the [catch]
    block. *)
Definition emails_with (engine : Engine)
    (collection : Result (list EmailDoc)) (search : option string)
  : Response :=
  let query := build_query search in
  match collection with
  | Throw error => failure error
  | Ok docs =>
      match compile_with engine query with
      | Throw error => failure error
      | Ok test => mkResponse 200 (PDocs (sort_desc (filter test docs)))
      end
  end.

(** The reading of the claim: [q] occurs in [s], letter case apart. *)
Definition contains_ci (q s : string) : bool :=
  includes (lower_string q) (lower_string s).

Definition spec_selects (q : string) (d : EmailDoc) : bool :=
  contains_ci q (doc_to d) || contains_ci q (doc_subject d)
  || contains_ci q (doc_body d).

(** The documents the claim asks for, and the queries it is read
    for: no query, or one without operators. *)
Definition spec_filter (search : option string) (d : EmailDoc) : bool :=
  match search with
  | Some q => spec_selects q d
  | None => true
  end.

Definition plain_search (search : option string) : bool :=
  match search with
  | Some q => plain q
  | None => true
  end.

Definition newest_first (a b : EmailDoc) : Prop :=
  (timestamp b <= timestamp a)%Z.

End Emails.

(* ------------------------------------------------------------------ *)
(** ** Sample worlds and requests *)

Module Examples.
Import Text SendEmail.

Definition png : S3Object := mkS3Object "Man" (Some "image/png").

Definition NoSuchKey : JsError :=
  mkError "The specified key does not exist." None.

Definition WriteFailed : JsError :=
  mkError "EmailLog validation failed" None.

(** Every service answers. *)
Definition all_up : World :=
  mkWorld (JStr "noreply@example.org")
    (fun _ => Ok png) (fun _ => Ok tt) (fun _ => Ok tt).

(** The object store misses the key [gone.png]. *)
Definition missing_object : World :=
  mkWorld (JStr "noreply@example.org")
    (fun key => match key with
                | JStr "gone.png" => Throw NoSuchKey
                | _ => Ok png
                end)
    (fun _ => Ok tt) (fun _ => Ok tt).

(** The document store rejects every write. *)
Definition log_down : World :=
  mkWorld (JStr "noreply@example.org")
    (fun _ => Ok png) (fun _ => Ok tt) (fun _ => Throw WriteFailed).

(** [{to: "a@b.com", subject: "Hi", body: "Hello"}]. *)
Definition hello : Request :=
  mkRequest (JStr "a@b.com") (JStr "Hi") (JStr "Hello") None None JUndef.

(** The same without [to]. *)
Definition no_recipient : Request :=
  mkRequest JUndef (JStr "Hi") (JStr "Hello") None None JUndef.

(** The same with an empty [body]. *)
Definition empty_body : Request :=
  mkRequest (JStr "a@b.com") (JStr "Hi") (JStr "") None None JUndef.

(** A markup body sent without the template. *)
Definition bold_hello : Request :=
  mkRequest (JStr "a@b.com") (JStr "Hi") (JStr "<b>Hello</b>") None None
    (JBool false).

(** One image and one attachment; the attachment is missing from
    [missing_object]. *)
Definition with_files : Request :=
  mkRequest (JStr "a@b.com") (JStr "Hi") (JStr "Hello")
    (Some [JStr "docs/gone.png"; JStr "gone.png"])
    (Some [JStr "img/logo.png"]) JUndef.

(** Two embedded images. *)
Definition two_images : Request :=
  mkRequest (JStr "a@b.com") (JStr "Hi") (JStr "Hello") None
    (Some [JStr "img/a.png"; JStr "img/b.png"]) JUndef.

(** Ten embedded images. *)
Definition ten_images : Request :=
  mkRequest (JStr "a@b.com") (JStr "Hi") (JStr "Hello") None
    (Some (map (fun k => JStr ("img/" ++ dec k ++ ".png")%string)
             (seq 1 10)))
    JUndef.

(** One embedded image, which the body shows in a place of its own. *)
Definition image_in_body : Request :=
  mkRequest (JStr "a@b.com") (JStr "Hi")
    (JStr ("<p>Our logo: <img src=" ++ dq ++ "cid:image-1" ++ dq ++ "></p>"))
    None (Some [JStr "img/logo.png"]) JUndef.

(** A preview whose body refers to an image of its own. *)
Definition preview_with_logo : PreviewEmail.Request :=
  PreviewEmail.mkRequest (JStr "Hi")
    (JStr ("<img src=" ++ dq ++ "cid:logo" ++ dq ++ ">")) (Some 2%Z).

(** A stored document no field of which has a dot. *)
Definition plain_doc : EmailDoc :=
  mkEmailDoc "ab" "Hi" "Hello" "<p>Hello</p>" [] [] 5.

Definition older_doc : EmailDoc :=
  mkEmailDoc "carol@example.org" "Minutes" "See the HELLO file" "" [] [] 3.

Definition newer_doc : EmailDoc :=
  mkEmailDoc "dave@example.org" "hello again" "Nothing" "" [] [] 9.

(** The mail provider rejects every message, with a response body. *)
Definition Forbidden : JsError :=
  mkError "Forbidden"
    (Some (JObj [("errors", JArr [JObj [("message", JStr "access denied")]])])).

Definition provider_down : World :=
  mkWorld (JStr "noreply@example.org")
    (fun _ => Ok png) (fun _ => Throw Forbidden) (fun _ => Ok tt).

(** A body that is a number, sent without the template. *)
Definition number_body : Request :=
  mkRequest (JStr "a@b.com") (JStr "Hi") (JNum 5)
    (Some [JStr "docs/a.pdf"]) (Some [JStr "img/logo.png"]) (JBool false).

(** An image and an attachment, all there. *)
Definition logo_and_report : Request :=
  mkRequest (JStr "a@b.com") (JStr "Hi") (JStr "Hello")
    (Some [JStr "docs/2024/report.pdf"]) (Some [JStr "img/logo.png"]) JUndef.

End Examples.

(* ------------------------------------------------------------------ *)
(** * Facts about numbers as text *)

Module JsFacts.

(** Integers of at most 53 bits are doubles. *)
Lemma to_double_safe (x : Z) :
  (0 < x < 2 ^ 53)%Z -> to_double x = x.
Proof.
  intros [Hpos Hlt]. unfold to_double.
  assert (Hlog : (Z.log2 x < 53)%Z) by (apply Z.log2_lt_pow2; assumption).
  destruct (Z.leb_spec (Z.log2 x) 52); [reflexivity|lia].
Qed.

(** Beyond 53 bits the literal is rounded, and the digits printed are
    the fewest that tell the double from its neighbours. *)
Example num_to_string_samples :
  num_to_string 42 = "42"
  /\ num_to_string (-7) = "-7"
  /\ num_to_string (2 ^ 53 + 1) = "9007199254740992"
  /\ num_to_string (2 ^ 64) = "18446744073709552000"
  /\ num_to_string (10 ^ 21) = "1e+21"
  /\ num_to_string (2 ^ 70) = "1.1805916207174113e+21".
Proof. repeat split; vm_compute; reflexivity. Qed.

End JsFacts.

(* ------------------------------------------------------------------ *)
(** * Facts about text *)

Module TextFacts.
Import Text.

Lemma append_assoc (a b c : string) :
  ((a ++ b) ++ c)%string = (a ++ (b ++ c))%string.
Proof.
  induction a as [|x a IH]; simpl; [reflexivity|now rewrite IH].
Qed.

Lemma append_nil_r (a : string) : (a ++ "")%string = a.
Proof.
  induction a as [|x a IH]; simpl; [reflexivity|now rewrite IH].
Qed.

Lemma mem_app (c : ascii) (a b : string) :
  mem c (a ++ b) = mem c a || mem c b.
Proof.
  induction a as [|x a IH]; simpl; [reflexivity|].
  rewrite IH. now rewrite orb_assoc.
Qed.

Lemma prefix_empty_r (n : string) :
  n <> EmptyString -> prefix n EmptyString = false.
Proof. destruct n; [congruence|reflexivity]. Qed.

Lemma prefix_cons (m x : ascii) (n s : string) :
  prefix (String m n) (String x s)
  = Ascii.eqb m x && prefix n s.
Proof.
  simpl. destruct (ascii_dec m x) as [->|Hne].
  - now rewrite Ascii.eqb_refl.
  - apply Ascii.eqb_neq in Hne. now rewrite Hne.
Qed.

Lemma prefix_refl (s : string) : prefix s s = true.
Proof.
  induction s as [|c s IH]; [reflexivity|].
  now rewrite prefix_cons, Ascii.eqb_refl.
Qed.

Lemma prefix_app_l (p x s : string) :
  prefix (p ++ x) s = true -> prefix p s = true.
Proof.
  revert s. induction p as [|c p IH]; intros s H; [now destruct s|].
  destruct s as [|d s]; [discriminate|].
  change (prefix (String c (p ++ x)) (String d s) = true) in H.
  rewrite prefix_cons in *.
  apply andb_true_iff in H as [-> H]. simpl. now apply IH.
Qed.

(** A character foreign to the needle stops every match. *)
Lemma prefix_stops_at_head (n x b : string) :
  head_foreign n b = true -> prefix n (x ++ b) = prefix n x.
Proof.
  destruct b as [|d b]; [now rewrite append_nil_r|].
  unfold head_foreign. simpl. intros Hd. apply negb_true_iff in Hd.
  revert n Hd. induction x as [|y x IH]; intros n Hd.
  - destruct n as [|m n]; [reflexivity|].
    change (prefix (String m n) (String d b) = false).
    rewrite prefix_cons. simpl in Hd.
    apply orb_false_iff in Hd as [Hd _].
    rewrite Ascii.eqb_sym in Hd. now rewrite Hd.
  - destruct n as [|m n]; [reflexivity|].
    change (prefix (String m n) (String y (x ++ String d b))
            = prefix (String m n) (String y x)).
    rewrite !prefix_cons. f_equal. apply IH.
    simpl in Hd. now apply orb_false_iff in Hd.
Qed.

Lemma last_foreign_cons (n : string) (c x : ascii) (a : string) :
  last_foreign n (String c (String x a)) = last_foreign n (String x a).
Proof. reflexivity. Qed.

Lemma last_foreign_tail (m : ascii) (n a : string) :
  a <> EmptyString ->
  last_foreign (String m n) a = true -> last_foreign n a = true.
Proof.
  induction a as [|x a IH]; [congruence|]. intros _.
  destruct a as [|y a].
  - unfold last_foreign. simpl. rewrite !negb_true_iff. intros H.
    now apply orb_false_iff in H.
  - rewrite !last_foreign_cons. apply IH. discriminate.
Qed.

Lemma prefix_stops_at_last (n x b : string) :
  x <> EmptyString -> last_foreign n x = true ->
  prefix n (x ++ b) = prefix n x.
Proof.
  revert n. induction x as [|y x IH]; [congruence|]. intros n _ Hl.
  destruct n as [|m n]; [reflexivity|].
  change (prefix (String m n) (String y (x ++ b))
          = prefix (String m n) (String y x)).
  rewrite !prefix_cons.
  destruct x as [|z x].
  - unfold last_foreign in Hl. simpl in Hl.
    apply negb_true_iff, orb_false_iff in Hl as [Hl _].
    rewrite Ascii.eqb_sym in Hl. now rewrite Hl.
  - f_equal. apply IH; [discriminate|].
    rewrite last_foreign_cons in Hl.
    apply last_foreign_tail in Hl; [assumption|discriminate].
Qed.

Lemma last_char_app (a b : string) :
  b <> EmptyString -> last_char (a ++ b) = last_char b.
Proof.
  intros Hb. induction a as [|x a IH]; [reflexivity|].
  simpl. destruct (a ++ b)%string as [|y r] eqn:E.
  - destruct a; simpl in E; [congruence|discriminate].
  - exact IH.
Qed.

Lemma head_char_app (a b : string) :
  a <> EmptyString -> head_char (a ++ b) = head_char a.
Proof. destruct a; [congruence|reflexivity]. Qed.

Lemma occ_empty (n : string) : n <> EmptyString -> occ n EmptyString = 0.
Proof. destruct n; [congruence|reflexivity]. Qed.

Lemma occ_cons (n : string) (c : ascii) (s : string) :
  occ n (String c s) = (if prefix n (String c s) then 1 else 0) + occ n s.
Proof. reflexivity. Qed.

(** Occurrences on the two sides of a junction add up as soon as no
    occurrence can straddle it. *)
Lemma occ_app_head (n a b : string) :
  n <> EmptyString -> head_foreign n b = true ->
  occ n (a ++ b) = occ n a + occ n b.
Proof.
  intros Hn Hb. induction a as [|x a IH].
  - now rewrite occ_empty.
  - change (occ n (String x (a ++ b)) = occ n (String x a) + occ n b).
    rewrite !occ_cons, IH.
    change (String x (a ++ b)) with (String x a ++ b)%string.
    rewrite prefix_stops_at_head by assumption. lia.
Qed.

Lemma occ_app_last (n a b : string) :
  n <> EmptyString -> last_foreign n a = true ->
  occ n (a ++ b) = occ n a + occ n b.
Proof.
  intros Hn. induction a as [|x a IH]; intros Ha.
  - now rewrite occ_empty.
  - change (occ n (String x (a ++ b)) = occ n (String x a) + occ n b).
    rewrite !occ_cons.
    change (String x (a ++ b)) with (String x a ++ b)%string.
    rewrite prefix_stops_at_last by (assumption || discriminate).
    destruct a as [|y a].
    + rewrite occ_empty by assumption. simpl append. lia.
    + rewrite IH by exact Ha. lia.
Qed.

Lemma occ_longer_needle (p x s : string) :
  occ p s = 0 -> occ (p ++ x) s = 0.
Proof.
  induction s as [|c s IH].
  - unfold occ. destruct (prefix p "") eqn:E; [discriminate|]. intros _.
    destruct (prefix (p ++ x) "") eqn:E'; [|reflexivity].
    apply prefix_app_l in E'. congruence.
  - rewrite !occ_cons. intros H.
    destruct (prefix p (String c s)) eqn:E; [discriminate|].
    destruct (prefix (p ++ x) (String c s)) eqn:E'.
    + apply prefix_app_l in E'. congruence.
    + apply IH. simpl in H. exact H.
Qed.

Lemma includes_occ (n s : string) :
  includes n s = true <-> 0 < occ n s.
Proof.
  induction s as [|c s IH].
  - unfold includes, occ.
    destruct (prefix n ""); simpl; split; intros H;
      try reflexivity; try discriminate; lia.
  - change (includes n (String c s))
      with (prefix n (String c s) || includes n s).
    rewrite occ_cons.
    destruct (prefix n (String c s)); simpl.
    + split; [lia|reflexivity].
    + exact IH.
Qed.

(** A needle that begins with [c] does not occur in a text whose only
    [c] is its last character, unless it is that single character. *)
Lemma occ_only_final (c : ascii) (n x : string) :
  n <> EmptyString -> mem c x = false ->
  occ (String c n) (x ++ String c "") = 0.
Proof.
  intros Hn. induction x as [|y x IH]; intros Hx.
  - simpl. destruct (ascii_dec c c); [|congruence].
    destruct n; [congruence|reflexivity].
  - simpl in Hx. apply orb_false_iff in Hx as [Hy Hx].
    change (occ (String c n) (String y (x ++ String c "")) = 0).
    rewrite occ_cons, prefix_cons, Hy, IH by assumption. reflexivity.
Qed.

(** Two texts closed by the same terminator, which neither contains. *)
Lemma prefix_terminated (c : ascii) (x y : string) :
  mem c x = false -> mem c y = false ->
  prefix (x ++ String c "") (y ++ String c "") = true -> x = y.
Proof.
  revert y. induction x as [|a x IH]; intros y Hx Hy H.
  - destruct y as [|b y]; [reflexivity|].
    change (prefix (String c "") (String b (y ++ String c "")) = true) in H.
    rewrite prefix_cons in H. apply andb_true_iff in H as [H _].
    simpl in Hy. apply orb_false_iff in Hy as [Hy _]. congruence.
  - destruct y as [|b y].
    + change (prefix (String a (x ++ String c "")) (String c "") = true) in H.
      rewrite prefix_cons in H. apply andb_true_iff in H as [H _].
      simpl in Hx. apply orb_false_iff in Hx as [Hx _].
      rewrite Ascii.eqb_sym in H. congruence.
    + change (prefix (String a (x ++ String c ""))
                (String b (y ++ String c "")) = true) in H.
      rewrite prefix_cons in H. apply andb_true_iff in H as [Hab H].
      apply Ascii.eqb_eq in Hab. subst b.
      simpl in Hx, Hy.
      apply orb_false_iff in Hx as [_ Hx].
      apply orb_false_iff in Hy as [_ Hy].
      f_equal. now apply IH.
Qed.

(** What the removal of tags keeps was there before, and it leaves
    nothing to remove. *)
Lemma gt_index_none (s : string) :
  gt_index s = None <-> mem ">" s = false.
Proof.
  induction s as [|c s IH]; [simpl; tauto|].
  change (gt_index (String c s))
    with (if Ascii.eqb c ">" then Some 0 else option_map S (gt_index s)).
  change (mem ">" (String c s)) with (Ascii.eqb ">" c || mem ">" s).
  rewrite (Ascii.eqb_sym ">" c).
  destruct (Ascii.eqb c ">"); cbn [orb]; [split; discriminate|].
  destruct (gt_index s); cbn [option_map].
  - split; [discriminate|]. intros H. apply IH in H. discriminate.
  - split; [intros _; now apply IH|reflexivity].
Qed.

Lemma replace_tags_keeps (c : ascii) (s : string) :
  forall skip, mem c s = false -> mem c (replace_tags skip s) = false.
Proof.
  induction s as [|d s IH]; intros skip H; [reflexivity|].
  change (mem c (String d s)) with (Ascii.eqb c d || mem c s) in H.
  apply orb_false_iff in H as [Hd Hs].
  cbn [replace_tags]. destruct skip as [|k]; [|now apply IH].
  destruct (match_tag (String d s)); [now apply IH|].
  change (mem c (String d (replace_tags 0 s)))
    with (Ascii.eqb c d || mem c (replace_tags 0 s)).
  rewrite Hd. now apply IH.
Qed.

Lemma replace_tags_leaves_no_tag (s : string) :
  forall skip, has_tag (replace_tags skip s) = false.
Proof.
  induction s as [|c s IH]; intros skip; [reflexivity|].
  cbn [replace_tags]. destruct skip as [|k]; [|apply IH].
  destruct (match_tag (String c s)) as [len|] eqn:E; [apply IH|].
  cbn [has_tag].
  replace (match_tag (String c (replace_tags 0 s))) with (@None nat);
    [apply IH|].
  unfold match_tag in *.
  destruct c as [[] [] [] [] [] [] [] []]; try reflexivity.
  destruct (gt_index s) eqn:G; [discriminate|].
  apply gt_index_none in G.
  apply (replace_tags_keeps ">" s 0) in G.
  apply gt_index_none in G. now rewrite G.
Qed.

End TextFacts.

(* ------------------------------------------------------------------ *)
(** * Facts about the renderer *)

Module RenderFacts.
Import Text TextFacts Render.

Lemma uint_digits (c : ascii) (d : Decimal.uint) :
  digit c = false -> mem c (NilEmpty.string_of_uint d) = false.
Proof.
  unfold digit. simpl. intros H.
  repeat (apply orb_false_iff in H as [? H]).
  induction d; simpl; try reflexivity;
    apply orb_false_iff; split; assumption.
Qed.

Lemma dec_digits (c : ascii) (k : nat) :
  digit c = false -> mem c (dec k) = false.
Proof. apply uint_digits. Qed.

Lemma dec_inj (j k : nat) : dec j = dec k -> j = k.
Proof.
  unfold dec. intros H.
  apply (f_equal NilEmpty.uint_of_string) in H.
  rewrite !NilEmpty.usu in H. injection H as H.
  now apply Unsigned.to_uint_inj.
Qed.

(** The loop, unrolled from the left. *)
Lemma fold_blocks (cids : list string) (acc : string) :
  fold_left (fun acc cid => (acc ++ image_block cid)%string) cids acc
  = (acc ++ imageHtml cids)%string.
Proof.
  unfold imageHtml. revert acc.
  induction cids as [|c cids IH]; intros acc; simpl.
  - now rewrite append_nil_r.
  - rewrite IH, (IH (image_block c)). now rewrite append_assoc.
Qed.

Lemma imageHtml_cons (c : string) (cids : list string) :
  imageHtml (c :: cids) = (image_block c ++ imageHtml cids)%string.
Proof.
  unfold imageHtml at 1. simpl fold_left. apply fold_blocks.
Qed.

(** The loop as a run of steps reaches exactly [imageHtml]. *)
Lemma loop_run_total (cids : list string) (acc : string) :
  loop_run (cids, acc) (acc ++ imageHtml cids)%string.
Proof.
  revert acc. induction cids as [|c cids IH]; intros acc.
  - unfold imageHtml. simpl. rewrite append_nil_r. constructor.
  - eapply run_step; [constructor|].
    rewrite imageHtml_cons, <- append_assoc. apply IH.
Qed.

Lemma loop_step_deterministic (c c1 c2 : list string * string) :
  loop_step c c1 -> loop_step c c2 -> c1 = c2.
Proof.
  intros H1 H2. inversion H1; subst. inversion H2; subst. reflexivity.
Qed.

Lemma loop_run_deterministic (c : list string * string) (o1 o2 : string) :
  loop_run c o1 -> loop_run c o2 -> o1 = o2.
Proof.
  intros H1. revert o2.
  induction H1 as [acc|c c' out Hs Hr IH]; intros o2 H2.
  - inversion H2 as [|? ? ? Hs']; subst; [reflexivity|inversion Hs'].
  - inversion H2 as [|? c'' ? Hs' Hr']; subst; [inversion Hs|].
    rewrite (loop_step_deterministic _ _ _ Hs Hs') in IH. now apply IH.
Qed.

Lemma image_block_split (id : string) :
  image_block id = (block_pre ++ src_value id ++ block_post)%string.
Proof.
  unfold image_block, block_pre, src_value, cid_ref.
  now rewrite !append_assoc.
Qed.

End RenderFacts.

(* ------------------------------------------------------------------ *)
(** * Counting references in a rendered document *)

Module Occurrences.
Import Text TextFacts Render RenderFacts.

Lemma foreign_last (n a : string) (c : ascii) :
  last_char a = Some c -> mem c n = false -> last_foreign n a = true.
Proof. unfold last_foreign. intros -> H. simpl. now rewrite H. Qed.

Lemma foreign_head (n a b : string) (c : ascii) :
  head_char a = Some c -> mem c n = false ->
  head_foreign n (a ++ b) = true.
Proof.
  unfold head_foreign. intros Ha H.
  rewrite head_char_app by (destruct a; [discriminate|discriminate]).
  rewrite Ha. simpl. now rewrite H.
Qed.

Lemma foreign_head_only (n a : string) (c : ascii) :
  head_char a = Some c -> mem c n = false -> head_foreign n a = true.
Proof. unfold head_foreign. intros -> H. simpl. now rewrite H. Qed.

Lemma occ_template (n s b images : string) :
  hole_safe n ->
  occ n (template s b images) = 2 * occ n s + occ n b + occ n images.
Proof.
  intros [Hn Hlt Hgt Hsp Hlf H0 H1 H2 H3 H4]. unfold template.
  rewrite (occ_app_last n tpl_head), H0
    by (assumption || now apply (foreign_last _ _ ">")).
  rewrite (occ_app_head n s)
    by (assumption || now apply (foreign_head _ _ _ "<")).
  rewrite (occ_app_last n tpl_title_to_h1), H1
    by (assumption || now apply (foreign_last _ _ ">")).
  rewrite (occ_app_head n s)
    by (assumption || now apply (foreign_head _ _ _ "<")).
  rewrite (occ_app_last n tpl_h1_to_content), H2
    by (assumption || now apply (foreign_last _ _ " ")).
  rewrite (occ_app_head n b)
    by (assumption || now apply (foreign_head _ _ _ lf)).
  rewrite (occ_app_last n tpl_content_to_images), H3
    by (assumption || now apply (foreign_last _ _ " ")).
  rewrite (occ_app_head n images), H4
    by (assumption || now apply (foreign_head_only _ _ lf)).
  lia.
Qed.

Section Numbered.
Variable p : string.
Hypothesis p_no_quote : mem (ascii_of_nat 34) p = false.

Lemma numbered_unfold (k : nat) :
  numbered p k
  = String (ascii_of_nat 34)
      (("cid:" ++ p ++ dec k) ++ String (ascii_of_nat 34) "").
Proof.
  unfold numbered, src_value, cid_ref, dq. simpl.
  now rewrite !append_assoc.
Qed.

Lemma numbered_nonempty (k : nat) : numbered p k <> EmptyString.
Proof. rewrite numbered_unfold. discriminate. Qed.

Lemma numbered_mem (c : ascii) (k : nat) :
  digit c = false -> mem c (dq ++ "cid:" ++ p) = false ->
  mem c (numbered p k) = false.
Proof.
  intros Hd Hc. unfold numbered, src_value, cid_ref.
  rewrite !mem_app in *.
  apply orb_false_iff in Hc as [Hq Hc].
  apply orb_false_iff in Hc as [Hc Hp].
  now rewrite Hq, Hc, Hp, (dec_digits c k Hd).
Qed.

Lemma numbered_longer (k : nat) :
  numbered p k = ((dq ++ "cid:") ++ (p ++ dec k) ++ dq)%string.
Proof.
  unfold numbered, src_value, cid_ref. now rewrite !append_assoc.
Qed.

Lemma occ_numbered_zero (j : nat) (s : string) :
  occ (dq ++ "cid:") s = 0 -> occ (numbered p j) s = 0.
Proof. rewrite numbered_longer. apply occ_longer_needle. Qed.

(** A numbered value occurs in another one only as the whole of
    it. *)
Lemma occ_numbered_self (j k : nat) :
  occ (numbered p j) (numbered p k) = if (j =? k)%nat then 1 else 0.
Proof.
  rewrite (numbered_unfold k), occ_cons.
  rewrite <- (numbered_unfold k).
  assert (Hinner : mem (ascii_of_nat 34) ("cid:" ++ p ++ dec k) = false).
  { rewrite !mem_app, p_no_quote, dec_digits by reflexivity.
    reflexivity. }
  rewrite (numbered_unfold j) at 2.
  rewrite occ_only_final; [|destruct ("cid:" ++ p ++ dec j)%string;
                             discriminate|exact Hinner].
  destruct (Nat.eqb_spec j k) as [->|Hne].
  - now rewrite prefix_refl.
  - destruct (prefix (numbered p j) (numbered p k)) eqn:E; [|reflexivity].
    exfalso. apply Hne. rewrite !numbered_unfold, prefix_cons in E.
    apply andb_true_iff in E as [_ E].
    apply prefix_terminated in E.
    + simpl in E. injection E as E.
      assert (Hl : forall (q x y : string),
                 (q ++ x)%string = (q ++ y)%string -> x = y).
      { induction q as [|? q IHq]; intros x y Hq; [exact Hq|].
        simpl in Hq. injection Hq as Hq. now apply IHq. }
      apply Hl in E. now apply dec_inj.
    + rewrite !mem_app, p_no_quote, dec_digits by reflexivity.
      reflexivity.
    + exact Hinner.
Qed.

Hypothesis p_no_eq : mem "=" p = false.
Hypothesis p_no_space : mem " " p = false.
Hypothesis p_no_gt : mem ">" p = false.

Lemma occ_numbered_block (j k : nat) :
  occ (numbered p j) (image_block (p ++ dec k))
  = if (j =? k)%nat then 1 else 0.
Proof.
  rewrite image_block_split.
  rewrite occ_app_last;
    [|apply numbered_nonempty
     |apply (foreign_last _ _ "="); [reflexivity|];
      apply numbered_mem; [reflexivity|];
      rewrite !mem_app, p_no_eq; reflexivity].
  rewrite occ_app_head;
    [|apply numbered_nonempty
     |apply (foreign_head_only _ _ " "); [reflexivity|];
      apply numbered_mem; [reflexivity|];
      rewrite !mem_app, p_no_space; reflexivity].
  rewrite (occ_numbered_zero j block_pre) by reflexivity.
  rewrite (occ_numbered_zero j block_post) by reflexivity.
  change (src_value (p ++ dec k)) with (numbered p k).
  rewrite occ_numbered_self. lia.
Qed.

(** Among the blocks written for the ids [a .. a+len-1], the value
    numbered [j] occurs once when [j] is one of them, and not at all
    otherwise. *)
Lemma occ_numbered_images (j a len : nat) :
  occ (numbered p j)
    (imageHtml (map (fun k => (p ++ dec k)%string) (seq a len)))
  = if ((a <=? j)%nat && (j <? a + len)%nat)%bool then 1 else 0.
Proof.
  revert a. induction len as [|len IH]; intros a.
  - simpl seq. simpl map. unfold imageHtml. simpl fold_left.
    rewrite occ_empty by apply numbered_nonempty.
    destruct (Nat.leb_spec a j), (Nat.ltb_spec j (a + 0));
      simpl; try reflexivity; lia.
  - simpl seq. simpl map. rewrite imageHtml_cons.
    rewrite occ_app_last;
      [|apply numbered_nonempty
       |apply (foreign_last _ _ ">");
        [rewrite image_block_split, !last_char_app
           by (try discriminate; reflexivity); reflexivity|];
        apply numbered_mem; [reflexivity|];
        rewrite !mem_app, p_no_gt; reflexivity].
    rewrite occ_numbered_block, IH.
    destruct (Nat.eqb_spec j a), (Nat.leb_spec a j),
      (Nat.leb_spec (S a) j), (Nat.ltb_spec j (S a + len)),
      (Nat.ltb_spec j (a + S len)); simpl; try reflexivity; lia.
Qed.

Hypothesis p_no_lt : mem "<" p = false.
Hypothesis p_no_lf : mem lf p = false.

Lemma hole_safe_numbered (k : nat) : hole_safe (numbered p k).
Proof.
  constructor;
    try (apply numbered_mem; [reflexivity|];
         rewrite !mem_app, ?p_no_lt, ?p_no_gt, ?p_no_space, ?p_no_lf;
         reflexivity);
    try (apply occ_numbered_zero; reflexivity).
  apply numbered_nonempty.
Qed.

End Numbered.

Lemma numbered_ids_injective (p : string) (j k : nat) :
  (p ++ dec j)%string = (p ++ dec k)%string -> j = k.
Proof.
  induction p as [|c p IH]; simpl; intros H.
  - now apply dec_inj.
  - injection H as H. now apply IH.
Qed.

End Occurrences.

(* ------------------------------------------------------------------ *)
(** * Facts about the send-email handler *)

Module SendFacts.
Import Text Render SendEmail.

Section Loops.
Variable w : World.

Lemma embed_one_cases (i : nat) (key : JsVal) (st : Locals)
    (tr : list Event) :
  match embed_one w i key st tr with
  | (Ok st', tr') =>
      exists file s,
        s3_getObject w key = Ok file /\ key = JStr s
        /\ tr' = tr ++ [EvFetch key true]
        /\ st' = mkLocals
             (parts st ++
                [mkPart (base64 (Body file)) (pop (split "/" s))
                   (ContentType file) "inline"
                   (Some ("image-" ++ dec (i + 1))%string)])
             (embeddedImageCids st ++ [("image-" ++ dec (i + 1))%string])
             (embeddedImageLogs st ++
                [mkImageLog ("image-" ++ dec (i + 1))%string
                   (pop (split "/" s)) s (ContentType file)
                   (String.length (Body file))])
             (attachmentLogs st)
  | (Throw e, tr') =>
      tr' = tr ++ [EvFetch key true]
      \/ (s3_getObject w key = Throw e /\ tr' = tr ++ [EvFetch key false])
  end.
Proof.
  unfold embed_one, getFileFromS3, bind, await.
  destruct (s3_getObject w key) as [file|e] eqn:E; simpl.
  - destruct key; simpl; try (left; reflexivity).
    exists file, s. repeat split; reflexivity.
  - right. split; reflexivity.
Qed.

Lemma attach_one_cases (key : JsVal) (st : Locals) (tr : list Event) :
  match attach_one w key st tr with
  | (Ok st', tr') =>
      exists file s,
        s3_getObject w key = Ok file /\ key = JStr s
        /\ tr' = tr ++ [EvFetch key true]
        /\ st' = mkLocals
             (parts st ++
                [mkPart (base64 (Body file)) (pop (split "/" s))
                   (ContentType file) "attachment" None])
             (embeddedImageCids st)
             (embeddedImageLogs st)
             (attachmentLogs st ++
                [mkAttachmentLog (pop (split "/" s)) s (ContentType file)
                   (String.length (Body file))])
  | (Throw e, tr') =>
      tr' = tr ++ [EvFetch key true]
      \/ (s3_getObject w key = Throw e /\ tr' = tr ++ [EvFetch key false])
  end.
Proof.
  unfold attach_one, getFileFromS3, bind, await.
  destruct (s3_getObject w key) as [file|e] eqn:E; simpl.
  - destruct key; simpl; try (left; reflexivity).
    exists file, s. repeat split; reflexivity.
  - right. split; reflexivity.
Qed.

Lemma broken_step (key : JsVal) (keys : list JsVal) (e : JsError)
    (tr tr' : list Event) :
  broken w keys e (tr ++ [EvFetch key true]) tr' ->
  broken w (key :: keys) e tr tr'.
Proof.
  intros [done [H|[k [Hin [Hk H]]]]]; exists (key :: done).
  - left. rewrite H, <- app_assoc. reflexivity.
  - right. exists k. repeat split; [now right|assumption|].
    rewrite H, <- app_assoc. reflexivity.
Qed.

Lemma broken_now (key : JsVal) (keys : list JsVal) (e : JsError)
    (tr tr' : list Event) :
  tr' = tr ++ [EvFetch key true]
  \/ (s3_getObject w key = Throw e /\ tr' = tr ++ [EvFetch key false]) ->
  broken w (key :: keys) e tr tr'.
Proof.
  intros [H|[Hk H]].
  - exists [key]. left. exact H.
  - exists []. right. exists key. repeat split; [now left|assumption|].
    exact H.
Qed.

(** What the loop over [embeddedImageKeys] leaves behind. *)
Lemma embed_loop_cases (keys : list JsVal) :
  forall (i : nat) (st : Locals) (tr : list Event),
  match embed_loop w keys i st tr with
  | (Ok st', tr') =>
      tr' = tr ++ fetched keys
      /\ Forall (good_key w) keys
      /\ embeddedImageCids st'
         = embeddedImageCids st
           ++ map (fun k => ("image-" ++ dec k)%string)
                (seq (i + 1) (List.length keys))
      /\ map cid (embeddedImageLogs st')
         = map cid (embeddedImageLogs st)
           ++ map (fun k => ("image-" ++ dec k)%string)
                (seq (i + 1) (List.length keys))
      /\ map (fun l => JStr (image_s3Key l)) (embeddedImageLogs st')
         = map (fun l => JStr (image_s3Key l)) (embeddedImageLogs st)
           ++ keys
      /\ map content_id (parts st')
         = map content_id (parts st)
           ++ map (fun k => Some ("image-" ++ dec k)%string)
                (seq (i + 1) (List.length keys))
      /\ attachmentLogs st' = attachmentLogs st
  | (Throw e, tr') => broken w keys e tr tr'
  end.
Proof.
  induction keys as [|key keys IH]; intros i st tr.
  - simpl. unfold ret, fetched. simpl. rewrite !app_nil_r.
    repeat split; constructor.
  - simpl embed_loop. unfold bind at 1.
    pose proof (embed_one_cases i key st tr) as H1.
    destruct (embed_one w i key st tr) as [[st1|e] tr1].
    + destruct H1 as (file & s & Hf & Hk & -> & ->).
      specialize (IH (S i)
        (mkLocals
           (parts st ++
              [mkPart (base64 (Body file)) (pop (split "/" s))
                 (ContentType file) "inline"
                 (Some ("image-" ++ dec (i + 1))%string)])
           (embeddedImageCids st ++ [("image-" ++ dec (i + 1))%string])
           (embeddedImageLogs st ++
              [mkImageLog ("image-" ++ dec (i + 1))%string
                 (pop (split "/" s)) s (ContentType file)
                 (String.length (Body file))])
           (attachmentLogs st))
        (tr ++ [EvFetch key true])).
      destruct (embed_loop w keys (S i) _ _) as [[st2|e] tr2].
      * destruct IH as (-> & Hall & Hc & Hl & Hs & Hp & Ha).
        simpl in Hc, Hl, Hs, Hp, Ha.
        rewrite Hc, Hl, Hs, Hp, Ha. simpl List.length. simpl seq.
        rewrite !map_app, <- !app_assoc. simpl.
        replace (S i) with (i + 1) by lia. subst key.
        repeat split; try reflexivity.
        constructor; [exists file, s; split; [assumption|reflexivity]
                      |assumption].
      * now apply broken_step.
    + now apply broken_now.
Qed.

(** What the loop over [attachmentKeys] leaves behind. *)
Lemma attach_loop_cases (keys : list JsVal) :
  forall (st : Locals) (tr : list Event),
  match attach_loop w keys st tr with
  | (Ok st', tr') =>
      tr' = tr ++ fetched keys
      /\ Forall (good_key w) keys
      /\ embeddedImageCids st' = embeddedImageCids st
      /\ embeddedImageLogs st' = embeddedImageLogs st
      /\ map content_id (parts st')
         = map content_id (parts st) ++ repeat None (List.length keys)
      /\ map (fun l => JStr (s3Key l)) (attachmentLogs st')
         = map (fun l => JStr (s3Key l)) (attachmentLogs st) ++ keys
  | (Throw e, tr') => broken w keys e tr tr'
  end.
Proof.
  induction keys as [|key keys IH]; intros st tr.
  - simpl. unfold ret, fetched. simpl. rewrite !app_nil_r.
    repeat split; constructor.
  - simpl attach_loop. unfold bind at 1.
    pose proof (attach_one_cases key st tr) as H1.
    destruct (attach_one w key st tr) as [[st1|e] tr1].
    + destruct H1 as (file & s & Hf & Hk & -> & ->).
      specialize (IH
        (mkLocals
           (parts st ++
              [mkPart (base64 (Body file)) (pop (split "/" s))
                 (ContentType file) "attachment" None])
           (embeddedImageCids st)
           (embeddedImageLogs st)
           (attachmentLogs st ++
              [mkAttachmentLog (pop (split "/" s)) s (ContentType file)
                 (String.length (Body file))]))
        (tr ++ [EvFetch key true])).
      destruct (attach_loop w keys _ _) as [[st2|e] tr2].
      * destruct IH as (-> & Hall & Hc & Hl & Hp & Ha).
        simpl in Hc, Hl, Hp, Ha.
        rewrite Hc, Hl, Hp, Ha. simpl List.length. simpl repeat.
        rewrite !map_app, <- !app_assoc. simpl. subst key.
        repeat split; try reflexivity.
        constructor; [exists file, s; split; [assumption|reflexivity]
                      |assumption].
      * now apply broken_step.
    + now apply broken_now.
Qed.

Lemma broken_later (before keys after : list JsVal) (e : JsError)
    (tr' : list Event) :
  broken w keys e ([] ++ fetched before) tr' ->
  broken w (before ++ keys ++ after) e [] tr'.
Proof.
  intros [done [H|[k [Hin [Hk H]]]]]; exists (before ++ done).
  - left. rewrite H. unfold fetched. now rewrite map_app.
  - right. exists k. repeat split.
    + apply in_or_app. right. apply in_or_app. now left.
    + assumption.
    + rewrite H. unfold fetched. rewrite map_app. simpl.
      now rewrite <- app_assoc.
Qed.

(** Building [msg.html] and [msg.text] calls no service. *)
Lemma html_and_text_cases (req : Request) (cids : list string)
    (tr : list Event) :
  exists r,
    html_and_text req cids tr = (r, tr)
    /\ match r with
       | Ok ht =>
           if truthy (useHtmlTemplate req) then
             exists h,
               generateHTMLEmail (req_subject req) (req_body req) cids
               = Some h
               /\ ht = (JStr h, req_body req)
           else
             exists b,
               req_body req = JStr b
               /\ ht = (JStr b, JStr (strip_tags b))
       | Throw _ => True
       end.
Proof.
  unfold html_and_text.
  destruct (truthy (useHtmlTemplate req)).
  - unfold bind, of_option.
    destruct (generateHTMLEmail _ _ cids) as [h|]; simpl.
    + eexists. split; [reflexivity|]. exists h. now split.
    + eexists. split; [reflexivity|exact I].
  - unfold bind, body_replace.
    destruct (req_body req); simpl;
      try (eexists; split; [reflexivity|exact I]).
    eexists. split; [reflexivity|]. exists s. now split.
Qed.

(** Composition either yields the message and the entry, after
    fetching every key, or breaks off. *)
Lemma compose_cases (req : Request) :
  match compose w req [] with
  | (Ok (m, entry), tr) =>
      tr = fetched (all_keys req) /\ composed w req m entry
  | (Throw e, tr) => broken w (all_keys req) e [] tr
  end.
Proof.
  unfold compose. unfold bind at 1.
  pose proof (embed_loop_cases (keys_of (embeddedImageKeys req))
                0 no_locals []) as H1.
  destruct (embed_loop w _ 0 no_locals []) as [[st1|e] tr1].
  2: { unfold all_keys.
       destruct H1 as [done [H|[k [Hin [Hk H]]]]]; exists done.
       - now left.
       - right. exists k. repeat split; try assumption.
         apply in_or_app. now left. }
  destruct H1 as (-> & Hgood1 & Hc & Hl & Hs & Hp & Ha).
  simpl in Hc, Hl, Hs, Hp, Ha.
  unfold bind at 1.
  destruct (html_and_text_cases req (embeddedImageCids st1)
              ([] ++ fetched (keys_of (embeddedImageKeys req))))
    as (r & -> & Hr).
  destruct r as [ht|e].
  2: { exists (keys_of (embeddedImageKeys req)). now left. }
  unfold bind at 1.
  pose proof (attach_loop_cases (keys_of (attachmentKeys req)) st1
                ([] ++ fetched (keys_of (embeddedImageKeys req)))) as H2.
  destruct (attach_loop w _ st1 _) as [[st2|e] tr2].
  2: { unfold all_keys.
       rewrite <- (app_nil_r (keys_of (attachmentKeys req))).
       now apply broken_later. }
  destruct H2 as (-> & Hgood2 & Hc2 & Hl2 & Hp2 & Ha2).
  unfold ret. split.
  - unfold all_keys, fetched. now rewrite map_app.
  - rewrite Hc in Hr. constructor; simpl.
    + unfold all_keys. apply Forall_app. now split.
    + reflexivity.
    + reflexivity.
    + reflexivity.
    + destruct (truthy (useHtmlTemplate req)).
      * destruct Hr as (h & Hh & ->). exists h. now repeat split.
      * destruct Hr as (b & Hb & ->). exists b. now repeat split.
    + rewrite Hp2, Hp. unfold image_ids. now rewrite map_map.
    + reflexivity.
    + reflexivity.
    + reflexivity.
    + reflexivity.
    + rewrite Hl2, Hl. reflexivity.
    + rewrite Hl2, Hs. reflexivity.
    + rewrite Ha2, Ha. reflexivity.
Qed.

End Loops.

Lemma valid_guard (req : Request) :
  negb (truthy (req_to req)) || negb (truthy (req_subject req))
  || negb (truthy (req_body req)) = negb (valid req).
Proof.
  unfold valid.
  now destruct (truthy (req_to req)), (truthy (req_subject req)),
    (truthy (req_body req)).
Qed.

Lemma handler_run (w : World) (req : Request) :
  exists res tr,
    handler w req [] = (Ok res, tr) /\ Outcome w req (Some res) tr.
Proof.
  unfold handler. rewrite valid_guard.
  destruct (valid req) eqn:Hv; cbn [negb].
  - unfold try_catch, try_block. unfold bind at 1.
    pose proof (compose_cases w req) as Hc.
    destruct (compose w req []) as [[[m entry]|e] tr].
    + destruct Hc as [-> Hc]. cbn [fst snd].
      unfold bind at 1. unfold await at 1.
      destruct (sgMail_send w m) as [[]|e] eqn:Es; cbn [is_ok].
      * unfold bind, await, ret.
        destruct (EmailLog_create w entry) as [[]|e] eqn:El; cbn [is_ok].
        -- do 2 eexists. split; [reflexivity|].
           rewrite <- app_assoc. now apply sent_and_logged.
        -- do 2 eexists. split; [reflexivity|].
           rewrite <- app_assoc. now apply log_failed with (error := e).
      * do 2 eexists. split; [reflexivity|].
        now apply send_failed with (entry := entry).
    + do 2 eexists. split; [reflexivity|].
      destruct Hc as [done [->|[k [Hin [Hk ->]]]]]; cbn [app].
      * now apply type_error.
      * now apply fetch_failed.
  - do 2 eexists. split; [reflexivity|]. now apply rejected.
Qed.

(** Every request is answered, and goes one of the six ways. *)
Lemma handler_outcome (w : World) (req : Request) :
  exists res tr,
    send_email w req = (Some res, tr) /\ Outcome w req (Some res) tr.
Proof.
  destruct (handler_run w req) as (res & tr & H & Ho).
  exists res, tr. unfold send_email. now rewrite H.
Qed.

End SendFacts.

(* ------------------------------------------------------------------ *)
(** * The claims of the specification: POST /send-email *)

Module SendClaims.
Import Text TextFacts Render RenderFacts Occurrences SendEmail SendFacts
  Examples.

Lemma fetched_only_fetches (keys : list JsVal) (e : Event) :
  In e (fetched keys) -> exists k, e = EvFetch k true.
Proof.
  unfold fetched. intros H. apply in_map_iff in H as (k & <- & _).
  now exists k.
Qed.

Lemma in_after_fetched (keys : list JsVal) (tail : list Event) (e : Event) :
  In e (fetched keys ++ tail) ->
  (exists k, e = EvFetch k true) \/ In e tail.
Proof.
  intros H. apply in_app_or in H as [H|H]; [left|now right].
  now apply fetched_only_fetches in H.
Qed.

(** Find out which event of a trace the hypothesis [H] speaks of, and
    drop the cases where it cannot be one. *)
Ltac in_trace H :=
  repeat match type of H with
         | In _ (fetched _ ++ _) =>
             apply in_after_fetched in H as [[? H]|H]
         | In _ (fetched _) => apply fetched_only_fetches in H as [? H]
         | In _ (_ :: _) => destruct H as [H|H]
         | In _ [] => destruct H
         end;
  try discriminate.

Lemma quiet_fetches (keys : list JsVal) (tail : list Event) :
  (forall e, In e tail -> is_fetch e = true) ->
  quiet (fetched keys ++ tail).
Proof.
  intros Ht e He. apply in_after_fetched in He as [[k ->]|He].
  - now split.
  - apply Ht in He. destruct e; try discriminate. now split.
Qed.

(** C7.  A request in which [to], [subject] or [body] is absent is
    answered 400, and no call is made to the object store, to the mail
    provider or to the log store. *)
Theorem send_email_absent_field (w : World) (req : Request) :
  req_to req = JUndef \/ req_subject req = JUndef \/ req_body req = JUndef ->
  send_email w req = (Some missing_fields, [])
  /\ status missing_fields = 400.
Proof.
  intros H. split; [|reflexivity].
  unfold send_email, handler.
  destruct H as [H|[H|H]]; rewrite H; simpl;
    rewrite ?orb_true_r; reflexivity.
Qed.

Lemma send_email_absent_field_witness :
  send_email missing_object no_recipient = (Some missing_fields, [])
  /\ status missing_fields = 400.
Proof.
  apply (send_email_absent_field missing_object no_recipient).
  left. reflexivity.
Defined.

(** C5.  When a fetch from the object store fails for a key of
    [attachmentKeys] or [embeddedImageKeys], the answer is 500 and the
    trace has neither a delivery nor a log write.  The failure is read
    off the trace, or off the store for a request that passes
    validation. *)
Theorem fetch_failure_aborts (w : World) (req : Request) (key : JsVal) :
  In (EvFetch key false) (snd (send_email w req))
  \/ (valid req = true /\ In key (all_keys req)
      /\ is_ok (s3_getObject w key) = false) ->
  exists res,
    fst (send_email w req) = Some res
    /\ status res = 500
    /\ quiet (snd (send_email w req)).
Proof.
  intros H.
  destruct (handler_outcome w req) as (res & tr & E & Ho).
  rewrite E in *. simpl fst. simpl snd in *.
  assert (Hgood : forall m entry,
             composed w req m entry ->
             ~ (valid req = true /\ In key (all_keys req)
                /\ is_ok (s3_getObject w key) = false)).
  { intros m entry Hc (_ & Hin & Hk).
    pose proof (c_keys _ _ _ _ Hc) as Hall.
    rewrite Forall_forall in Hall.
    destruct (Hall key Hin) as (file & s & Hf & _).
    rewrite Hf in Hk. discriminate. }
  assert (Hno : forall tail,
             (forall e, In e tail -> is_fetch e = false) ->
             ~ In (EvFetch key false) (fetched (all_keys req) ++ tail)).
  { intros tail Ht Hin. apply in_after_fetched in Hin as [[k Hin]|Hin].
    - discriminate.
    - apply Ht in Hin. discriminate. }
  inversion Ho as [Hv|keys k error Hv Hin Hk|keys error Hv
                   |m entry error Hv Hc Hs|m entry error Hv Hc Hs Hl
                   |m entry Hv Hc Hs Hl]; subst.
  - destruct H as [[]|(Hv' & _)]. congruence.
  - eexists. split; [reflexivity|]. split; [reflexivity|].
    apply quiet_fetches. intros e [<-|[]]. reflexivity.
  - eexists. split; [reflexivity|]. split; [reflexivity|].
    rewrite <- (app_nil_r (fetched keys)).
    apply quiet_fetches. intros e [].
  - exfalso. destruct H as [H|H]; [|now apply (Hgood m entry)].
    revert H. apply Hno. intros e [<-|[]]. reflexivity.
  - exfalso. destruct H as [H|H]; [|now apply (Hgood m entry)].
    revert H. apply Hno. intros e [<-|[<-|[]]]; reflexivity.
  - exfalso. destruct H as [H|H]; [|now apply (Hgood m entry)].
    revert H. apply Hno. intros e [<-|[<-|[]]]; reflexivity.
Qed.

Lemma fetch_failure_aborts_witness :
  exists res,
    fst (send_email missing_object with_files) = Some res
    /\ status res = 500
    /\ quiet (snd (send_email missing_object with_files)).
Proof.
  apply (fetch_failure_aborts missing_object with_files (JStr "gone.png")).
  left. vm_compute. right. right. left. reflexivity.
Defined.

(** C6.  When the delivery call has succeeded and the log write that
    follows it fails, the answer is 500, with the error of the log
    write, although the message was handed to the provider. *)
Theorem log_failure_after_delivery (w : World) (req : Request)
    (m : Msg) (entry : LogEntry) :
  In (EvSend m true) (snd (send_email w req)) ->
  In (EvLog entry false) (snd (send_email w req)) ->
  exists error,
    sgMail_send w m = Ok tt
    /\ EmailLog_create w entry = Throw error
    /\ fst (send_email w req) = Some (failure error)
    /\ status (failure error) = 500.
Proof.
  intros Hsend Hlog.
  destruct (handler_outcome w req) as (res & tr & E & Ho).
  rewrite E in *. simpl fst. simpl snd in *.
  inversion Ho as [Hv|keys k error Hv Hin Hk|keys error Hv
                   |m' entry' error Hv Hc Hs|m' entry' error Hv Hc Hs Hl
                   |m' entry' Hv Hc Hs Hl]; subst; in_trace Hlog.
  in_trace Hsend.
  injection Hlog as <-. injection Hsend as <-.
  exists error. repeat split; assumption.
Qed.

Lemma log_failure_after_delivery_witness :
  exists error,
    fst (send_email log_down hello) = Some (failure error)
    /\ status (failure error) = 500.
Proof.
  edestruct (log_failure_after_delivery log_down hello)
    as (error & _ & _ & H & Hs).
  - cbv. left. reflexivity.
  - cbv. right. left. reflexivity.
  - exists error. split; assumption.
Defined.

(** A 200 answer comes only from a request that was sent and
    logged. *)
Lemma success_inversion (w : World) (req : Request) (res : Response) :
  fst (send_email w req) = Some res -> status res = 200 ->
  exists m entry,
    snd (send_email w req)
    = fetched (all_keys req) ++ [EvSend m true; EvLog entry true]
    /\ composed w req m entry /\ res = success req.
Proof.
  intros Hres Hst.
  destruct (handler_outcome w req) as (res' & tr & E & Ho).
  rewrite E in *. simpl in Hres. injection Hres as <-.
  inversion Ho; subst; try discriminate.
  exists m, entry. simpl.
  split; [reflexivity|]. split; [assumption|reflexivity].
Qed.

(** The example of C1: the stored [body] is the markup as submitted. *)
Lemma plain_send_log_not_stripped :
  exists m entry,
    send_email all_up bold_hello
    = (Some (success bold_hello), [EvSend m true; EvLog entry true])
    /\ status (success bold_hello) = 200
    /\ text m = JStr "Hello"
    /\ body entry = JStr "<b>Hello</b>"
    /\ body entry <> JStr (strip_tags "<b>Hello</b>").
Proof.
  do 2 eexists. split; [reflexivity|]. repeat split. discriminate.
Qed.

(** C1, amended.  For a request with [useHtmlTemplate = false] that is
    answered 200, the text part of the message is the submitted body
    with every match of [<[^>]*>] removed, none being left, and the
    [body] of the log entry is the submitted body as it is, like its
    [htmlBody]. *)
Theorem plain_send_logs_body_verbatim (w : World) (req : Request)
    (b : string) (res : Response) :
  fst (send_email w req) = Some res -> status res = 200 ->
  req_useHtmlTemplate req = JBool false ->
  req_body req = JStr b ->
  exists m entry,
    snd (send_email w req)
    = fetched (all_keys req) ++ [EvSend m true; EvLog entry true]
    /\ html m = JStr b
    /\ text m = JStr (strip_tags b)
    /\ has_tag (strip_tags b) = false
    /\ body entry = JStr b
    /\ htmlBody entry = JStr b.
Proof.
  intros Hres Hst Htpl Hb.
  destruct (success_inversion w req res Hres Hst) as (m & entry & Htr & Hc & _).
  exists m, entry. split; [exact Htr|].
  pose proof (c_content _ _ _ _ Hc) as Hcontent.
  unfold useHtmlTemplate in Hcontent. rewrite Htpl in Hcontent.
  simpl in Hcontent. destruct Hcontent as (b' & Hb' & Hh & Ht).
  rewrite Hb in Hb'. injection Hb' as <-.
  rewrite (c_log_body _ _ _ _ Hc), (c_log_html _ _ _ _ Hc).
  repeat split; try assumption.
  apply replace_tags_leaves_no_tag.
Qed.

Lemma plain_send_logs_body_verbatim_witness :
  exists m entry,
    snd (send_email all_up bold_hello)
    = fetched (all_keys bold_hello) ++ [EvSend m true; EvLog entry true]
    /\ html m = JStr "<b>Hello</b>"
    /\ text m = JStr (strip_tags "<b>Hello</b>")
    /\ has_tag (strip_tags "<b>Hello</b>") = false
    /\ body entry = JStr "<b>Hello</b>"
    /\ htmlBody entry = JStr "<b>Hello</b>".
Proof.
  apply (plain_send_logs_body_verbatim all_up bold_hello "<b>Hello</b>"
           (success bold_hello)); reflexivity.
Defined.




(** Whatever was handed to the provider was composed from the
    request, and so was any entry handed to the log store. *)
Lemma sent_inversion (w : World) (req : Request) (m : Msg) (ok : bool) :
  In (EvSend m ok) (snd (send_email w req)) ->
  exists entry,
    composed w req m entry
    /\ forall e ok', In (EvLog e ok') (snd (send_email w req)) -> e = entry.
Proof.
  intros Hsend.
  destruct (handler_outcome w req) as (res & tr & E & Ho).
  rewrite E in *. simpl snd in *.
  inversion Ho as [Hv|keys k error Hv Hin Hk|keys error Hv
                   |m' entry' error Hv Hc Hs|m' entry' error Hv Hc Hs Hl
                   |m' entry' Hv Hc Hs Hl]; subst; in_trace Hsend.
  all: injection Hsend as <- _; exists entry'; split; [assumption|].
  all: intros e ok' He; in_trace He; now injection He as <- _.
Qed.

Lemma image_ids_NoDup (n : nat) : NoDup (image_ids n).
Proof.
  unfold image_ids. apply Injective_map_NoDup; [|apply seq_NoDup].
  intros j k. apply numbered_ids_injective.
Qed.

(** The examples of C4: with ten images, the text [cid:image-1] is
    also the beginning of [cid:image-10]; and a body that shows the
    image has a reference of its own beside the one of the renderer. *)
Lemma image_reference_repeated :
  (exists m entry h,
      send_email all_up ten_images
      = (Some (success ten_images),
         fetched (all_keys ten_images) ++ [EvSend m true; EvLog entry true])
      /\ html m = JStr h
      /\ occ (cid_ref "image-1") h = 2)
  /\ (exists m entry h,
         send_email all_up image_in_body
         = (Some (success image_in_body),
            fetched (all_keys image_in_body)
            ++ [EvSend m true; EvLog entry true])
         /\ html m = JStr h
         /\ occ (cid_ref "image-1") h = 2
         /\ occ (src_value "image-1") h = 2).
Proof.
  split; vm_compute; do 3 eexists;
    (split; [reflexivity|]); (split; [reflexivity|]);
    repeat split; vm_compute; reflexivity.
Qed.

(** C4, amended.  For a request with N embedded-image keys whose
    message reaches the provider, the content-ids of the inline parts
    and of the logged images are [image-1 .. image-N], in the order of
    the keys and without repetition; and when the template is used,
    the attribute value ["cid:image-k"], quotes included, occurs
    exactly once in the rendered document for each k, provided
    neither the subject nor the body contains it. *)
Theorem embedded_image_ids (w : World) (req : Request) (m : Msg)
    (ok : bool) :
  In (EvSend m ok) (snd (send_email w req)) ->
  let n := List.length (keys_of (embeddedImageKeys req)) in
  map content_id (msg_attachments m)
  = map Some (image_ids n)
    ++ repeat None (List.length (keys_of (attachmentKeys req)))
  /\ NoDup (image_ids n)
  /\ (forall entry ok',
        In (EvLog entry ok') (snd (send_email w req)) ->
        map cid (embeddedImages entry) = image_ids n
        /\ map (fun l => JStr (image_s3Key l)) (embeddedImages entry)
           = keys_of (embeddedImageKeys req))
  /\ (truthy (useHtmlTemplate req) = true ->
      exists h s b,
        html m = JStr h
        /\ to_string (req_subject req) = Some s
        /\ to_string (req_body req) = Some b
        /\ forall k, 1 <= k <= n ->
             occ (src_value ("image-" ++ dec k)) s = 0 ->
             occ (src_value ("image-" ++ dec k)) b = 0 ->
             occ (src_value ("image-" ++ dec k)) h = 1).
Proof.
  intros Hsend n.
  destruct (sent_inversion w req m ok Hsend) as (entry & Hc & Hentry).
  split; [exact (c_parts _ _ _ _ Hc)|].
  split; [apply image_ids_NoDup|].
  split.
  - intros e ok' He. rewrite (Hentry e ok' He).
    split; [exact (c_log_cids _ _ _ _ Hc)
           |exact (c_log_image_keys _ _ _ _ Hc)].
  - intros Htpl. pose proof (c_content _ _ _ _ Hc) as Hcontent.
    rewrite Htpl in Hcontent. destruct Hcontent as (h & Hgen & Hh & _).
    unfold generateHTMLEmail in Hgen.
    destruct (to_string (req_subject req)) as [s|]; [|discriminate].
    destruct (to_string (req_body req)) as [b|]; [|discriminate].
    injection Hgen as <-.
    exists (template s b (imageHtml (image_ids n))), s, b.
    repeat split; try assumption.
    intros k Hk Hs Hb.
    change (src_value ("image-" ++ dec k)) with (numbered "image-" k) in *.
    rewrite occ_template
      by (apply hole_safe_numbered; reflexivity).
    rewrite Hs, Hb. unfold image_ids.
    rewrite occ_numbered_images by reflexivity.
    destruct (Nat.leb_spec 1 k), (Nat.ltb_spec k (1 + n));
      simpl; try reflexivity; lia.
Qed.

Lemma embedded_image_ids_witness :
  exists m,
    map content_id (msg_attachments m) = [Some "image-1"; Some "image-2"]
    /\ exists h,
         html m = JStr h
         /\ occ (src_value "image-1") h = 1
         /\ occ (src_value "image-2") h = 1.
Proof.
  eexists.
  edestruct (embedded_image_ids all_up two_images) as (Hp & _ & _ & Hh).
  { cbv. right. right. left. reflexivity. }
  split; [exact Hp|].
  destruct (Hh eq_refl) as (h & s & b & Hm & Hs & Hb & Hocc).
  injection Hs as <-. injection Hb as <-.
  exists h. split; [exact Hm|].
  split; [apply (Hocc 1)|apply (Hocc 2)]; solve [simpl; lia|reflexivity].
Defined.

End SendClaims.

(* ------------------------------------------------------------------ *)
(** * The claims of the specification: the renderer and the preview *)

Module RenderClaims.
Import Text TextFacts Render RenderFacts Occurrences PreviewEmail Examples.

Lemma call_total (subject body : JsVal) (cids : list string) :
  call subject body cids (generateHTMLEmail subject body cids).
Proof.
  unfold generateHTMLEmail.
  pose proof (loop_run_total cids EmptyString) as Hrun.
  change ("" ++ imageHtml cids)%string with (imageHtml cids) in Hrun.
  destruct (to_string subject) as [s|] eqn:Es.
  - destruct (to_string body) as [b|] eqn:Eb.
    + now apply call_returns.
    + apply call_throws with (images := imageHtml cids); [assumption|].
      now right.
  - apply call_throws with (images := imageHtml cids); [assumption|].
    now left.
Qed.

(** C9.  Two calls of the renderer on the same subject, body and
    content-ids end in the same way, and with the same document when
    they return: the outcome of a call is the value of
    [generateHTMLEmail] at its arguments, whatever else the program
    does. *)
Theorem render_deterministic (subject body : JsVal) (cids : list string)
    (out1 out2 : option string) :
  call subject body cids out1 ->
  call subject body cids out2 ->
  out1 = out2 /\ out1 = generateHTMLEmail subject body cids.
Proof.
  assert (Hfun : forall out,
             call subject body cids out ->
             out = generateHTMLEmail subject body cids).
  { intros out H. unfold generateHTMLEmail.
    pose proof (loop_run_total cids EmptyString) as Hrun.
    change ("" ++ imageHtml cids)%string with (imageHtml cids) in Hrun.
    inversion H as [? ? ? images s b Hl Hs Hb|? ? ? images Hl Hn]; subst.
    - rewrite Hs, Hb.
      now rewrite (loop_run_deterministic _ _ _ Hl Hrun).
    - destruct Hn as [Hn|Hn]; rewrite Hn; [reflexivity|].
      now destruct (to_string subject). }
  intros H1 H2. apply Hfun in H1, H2. split; congruence.
Qed.

Lemma render_deterministic_witness :
  generateHTMLEmail (JStr "Hi") (JStr "Hello") ["image-1"]
  = generateHTMLEmail (JStr "Hi") (JStr "Hello") ["image-1"]
  /\ exists h, generateHTMLEmail (JStr "Hi") (JStr "Hello") ["image-1"]
               = Some h.
Proof.
  split.
  - apply (render_deterministic (JStr "Hi") (JStr "Hello") ["image-1"]);
      apply call_total.
  - eexists. reflexivity.
Defined.

Lemma hole_safe_cid : hole_safe "cid:".
Proof. constructor; (discriminate || reflexivity). Qed.

Lemma hole_safe_preview (k : nat) :
  hole_safe (cid_ref ("preview-image-" ++ dec k)).
Proof.
  assert (Hmem : forall c, digit c = false ->
                   mem c "cid:preview-image-" = false ->
                   mem c (cid_ref ("preview-image-" ++ dec k)) = false).
  { intros c Hd Hc. unfold cid_ref. rewrite <- append_assoc, mem_app.
    now rewrite (dec_digits c k Hd), orb_false_r. }
  assert (Hocc : forall s, occ "cid:" s = 0 ->
                   occ (cid_ref ("preview-image-" ++ dec k)) s = 0).
  { intros s. unfold cid_ref. apply occ_longer_needle. }
  constructor; try (apply Hmem; reflexivity); try (apply Hocc; reflexivity).
  discriminate.
Qed.

(** The example of C8: a reference written in the body is in the
    document too. *)
Lemma preview_body_reference :
  exists h,
    preview_email preview_with_logo
    = mkResponse 200 (PJson (JObj [("html", JStr h)]))
    /\ includes "cid:preview-image-1" h = true
    /\ includes "cid:preview-image-2" h = true
    /\ includes "cid:logo" h = true
    /\ occ "cid:" h = 3.
Proof.
  vm_compute. eexists. split; [reflexivity|].
  repeat split; vm_compute; reflexivity.
Qed.

(** C8, amended.  A preview request with [embeddedImageCount = 2]
    whose subject and body are present.  When both convert to text, as
    every string does, the answer is 200 with a document that contains
    [cid:preview-image-1] and [cid:preview-image-2], and whose other
    occurrences of [cid:] are those of the submitted subject, written
    twice, and of the submitted body: there is none when they have
    none.  When the subject or the body does not convert to text, the
    answer is 500 and carries no document. *)
Theorem preview_two_images (subject body : JsVal) :
  truthy subject = true -> truthy body = true ->
  (forall s b : string,
      to_string subject = Some s -> to_string body = Some b ->
      exists h,
        preview_email (mkRequest subject body (Some 2%Z))
        = mkResponse 200 (PJson (JObj [("html", JStr h)]))
        /\ includes "cid:preview-image-1" h = true
        /\ includes "cid:preview-image-2" h = true
        /\ occ "cid:" h = 2 + (2 * occ "cid:" s + occ "cid:" b))
  /\ (to_string subject = None \/ to_string body = None ->
      preview_email (mkRequest subject body (Some 2%Z))
      = mkResponse 500
          (PUncaught (TypeError "Cannot convert object to primitive value"))).
Proof.
  intros Hs Hb. split.
  - intros s b Es Eb.
    exists (template s b (imageHtml ["preview-image-1"; "preview-image-2"])).
    split.
    + unfold preview_email. simpl req_subject. simpl req_body.
      rewrite Hs, Hb. simpl negb. simpl orb.
      unfold generateHTMLEmail. rewrite Es, Eb. reflexivity.
    + assert (Hin : forall k,
                 occ (cid_ref ("preview-image-" ++ dec k))
                   (imageHtml ["preview-image-1"; "preview-image-2"]) = 1 ->
                 includes (cid_ref ("preview-image-" ++ dec k))
                   (template s b
                      (imageHtml ["preview-image-1"; "preview-image-2"]))
                 = true).
      { intros k Hk. apply includes_occ.
        rewrite occ_template by apply hole_safe_preview. rewrite Hk. lia. }
      split; [apply (Hin 1); reflexivity|].
      split; [apply (Hin 2); reflexivity|].
      rewrite occ_template by apply hole_safe_cid.
      change (occ "cid:" (imageHtml ["preview-image-1"; "preview-image-2"]))
        with 2.
      lia.
  - intros Hn. unfold preview_email. simpl req_subject. simpl req_body.
    rewrite Hs, Hb. simpl negb. simpl orb. unfold generateHTMLEmail.
    destruct Hn as [-> | ->]; [reflexivity|].
    now destruct (to_string subject).
Qed.

Lemma preview_two_images_witness :
  (exists h,
      preview_email (mkRequest (JStr "Hi") (JStr "Hello") (Some 2%Z))
      = mkResponse 200 (PJson (JObj [("html", JStr h)]))
      /\ includes "cid:preview-image-1" h = true
      /\ includes "cid:preview-image-2" h = true
      /\ occ "cid:" h = 2)
  /\ status
       (preview_email
          (mkRequest (JStr "Hi") (JObj [("toString", JNum 1)]) (Some 2%Z)))
     = 500.
Proof.
  split.
  - destruct (preview_two_images (JStr "Hi") (JStr "Hello"))
      as [H _]; [reflexivity|reflexivity|].
    apply (H "Hi" "Hello"); reflexivity.
  - destruct (preview_two_images (JStr "Hi") (JObj [("toString", JNum 1)]))
      as [_ H]; [reflexivity|reflexivity|].
    rewrite H; [reflexivity|]. right. reflexivity.
Defined.

End RenderClaims.

(* ------------------------------------------------------------------ *)
(** * The claims of the specification: validation *)

Module ValidationClaims.
Import Examples.

(** The values a JSON field can hold that count as false. *)
Lemma falsy_values (v : JsVal) :
  falsy v = true <->
  v = JUndef \/ v = JNull \/ v = JBool false \/ v = JNum 0
  \/ v = JStr EmptyString.
Proof.
  unfold falsy. split.
  - destruct v as [ | | [ | ] | n | s | ? | ? ]; simpl; try discriminate; auto.
    + rewrite negb_involutive. intros H. apply Z.eqb_eq in H.
      subst. auto 6.
    + rewrite negb_involutive. intros H. apply String.eqb_eq in H.
      subst. auto 6.
  - intros [-> | [-> | [-> | [-> | ->]]]]; reflexivity.
Qed.

(** C10.  A required field that holds a false value, the empty string
    among them, is treated as a missing one: [/send-email] answers 400
    when it is [to], [subject] or [body], without calling any service,
    and [/preview-email] answers 400 when it is [subject] or
    [body]. *)
Theorem falsy_field_is_missing (v : JsVal) :
  falsy v = true ->
  (forall w req,
      SendEmail.req_to req = v \/ SendEmail.req_subject req = v
      \/ SendEmail.req_body req = v ->
      SendEmail.send_email w req = (Some SendEmail.missing_fields, [])
      /\ status SendEmail.missing_fields = 400)
  /\ (forall req,
         PreviewEmail.req_subject req = v \/ PreviewEmail.req_body req = v ->
         PreviewEmail.preview_email req = PreviewEmail.missing_fields
         /\ status PreviewEmail.missing_fields = 400).
Proof.
  intros Hv.
  assert (Hf : truthy v = false).
  { unfold falsy in Hv. now apply negb_true_iff in Hv. }
  split.
  - intros w req H. split; [|reflexivity].
    unfold SendEmail.send_email, SendEmail.handler.
    destruct H as [H|[H|H]]; rewrite H, Hf; simpl;
      rewrite ?orb_true_r; reflexivity.
  - intros req H. split; [|reflexivity].
    unfold PreviewEmail.preview_email.
    destruct H as [H|H]; rewrite H, Hf; simpl;
      rewrite ?orb_true_r; reflexivity.
Qed.

Lemma falsy_field_is_missing_witness :
  SendEmail.send_email all_up empty_body
  = (Some SendEmail.missing_fields, [])
  /\ PreviewEmail.preview_email
       (PreviewEmail.mkRequest (JStr "Hi") (JStr "") (Some 2%Z))
     = PreviewEmail.missing_fields.
Proof.
  destruct (falsy_field_is_missing (JStr "")) as [Hsend Hpreview].
  - reflexivity.
  - split.
    + apply (Hsend all_up empty_body). right. right. reflexivity.
    + apply Hpreview. right. reflexivity.
Defined.

End ValidationClaims.

(* ------------------------------------------------------------------ *)
(** * The claims of the specification: GET /emails *)

Module EmailsClaims.
Import Text TextFacts Regex Emails Examples.

Lemma reserved_dot_backslash (c : ascii) :
  reserved c = false ->
  Ascii.eqb c "." = false /\ Ascii.eqb c "\" = false.
Proof.
  unfold reserved. simpl. intros H.
  repeat (apply orb_false_iff in H as [? H]). now split.
Qed.

(** A pattern without operators is read as its own characters. *)
Lemma parse_plain (q : string) :
  plain q = true -> parse q = Some (literals q).
Proof.
  induction q as [|c q IH]; [reflexivity|].
  simpl plain. intros H. apply andb_true_iff in H as [Hc Hq].
  apply negb_true_iff in Hc.
  destruct (reserved_dot_backslash c Hc) as [Hdot Hbs].
  simpl parse. rewrite Hdot, Hbs, Hc, (IH Hq). reflexivity.
Qed.

Lemma match_here_literals (q s : string) :
  match_here (literals q) s = prefix (lower_string q) (lower_string s).
Proof.
  revert s. induction q as [|c q IH]; intros s.
  - simpl. now destruct (lower_string s).
  - destruct s as [|d s]; [reflexivity|].
    simpl literals. simpl lower_string. rewrite prefix_cons.
    simpl match_here. now rewrite IH.
Qed.

Lemma search_literals (q s : string) :
  search (literals q) s = contains_ci q s.
Proof.
  unfold contains_ci. induction s as [|d s IH].
  - simpl search. rewrite match_here_literals. simpl.
    now rewrite orb_false_r.
  - simpl search. rewrite match_here_literals, IH. reflexivity.
Qed.

Lemma contains_ci_empty (s : string) : contains_ci EmptyString s = true.
Proof. unfold contains_ci. simpl. now destruct (lower_string s). Qed.

(** On the queries of [plain_search], the filter of the handler is
    the filter of the claim. *)
Lemma find_plain (search : option string) (docs : list EmailDoc) :
  plain_search search = true ->
  find (build_query search) docs = Some (filter (spec_filter search) docs).
Proof.
  destruct search as [q|]; cbn [plain_search spec_filter]; intros Hq.
  - unfold build_query. cbn [truthy].
    destruct (String.eqb_spec q EmptyString) as [->|Hne]; cbn [negb].
    + unfold find. cbn [compile option_map]. f_equal. apply filter_ext.
      intros d. unfold spec_filter, spec_selects.
      now rewrite !contains_ci_empty.
    + unfold find. cbn [compile]. rewrite (parse_plain q Hq).
      cbn [option_map]. f_equal.
      apply filter_ext. intros d. unfold spec_filter, spec_selects.
      now rewrite !search_literals.
  - unfold find. cbn [build_query compile option_map]. reflexivity.
Qed.

Lemma insert_desc_perm (d : EmailDoc) (l : list EmailDoc) :
  Permutation (insert_desc d l) (d :: l).
Proof.
  induction l as [|x l IH]; simpl; [reflexivity|].
  destruct (timestamp x <=? timestamp d)%Z; [reflexivity|].
  rewrite IH. apply perm_swap.
Qed.

Lemma sort_desc_perm (l : list EmailDoc) : Permutation (sort_desc l) l.
Proof.
  induction l as [|d l IH]; simpl; [reflexivity|].
  rewrite insert_desc_perm. now constructor.
Qed.

Lemma insert_desc_hd (a d : EmailDoc) (l : list EmailDoc) :
  newest_first a d -> HdRel newest_first a l ->
  HdRel newest_first a (insert_desc d l).
Proof.
  intros Had Hl. destruct l as [|x l]; simpl; [now constructor|].
  destruct (timestamp x <=? timestamp d)%Z; constructor;
    [assumption|now inversion Hl].
Qed.

Lemma insert_desc_sorted (d : EmailDoc) (l : list EmailDoc) :
  Sorted newest_first l -> Sorted newest_first (insert_desc d l).
Proof.
  induction 1 as [|x l Hs IH Hhd]; simpl.
  - repeat constructor.
  - destruct (Z.leb_spec (timestamp x) (timestamp d)) as [Hle|Hgt].
    + repeat constructor; assumption.
    + constructor; [exact IH|].
      apply insert_desc_hd; [|assumption].
      unfold newest_first. lia.
Qed.

Lemma sort_desc_sorted (l : list EmailDoc) :
  Sorted newest_first (sort_desc l).
Proof.
  induction l as [|d l IH]; simpl; [constructor|].
  now apply insert_desc_sorted.
Qed.

(** The example of C2: the query [.] is a pattern, and selects a
    document with no dot in it. *)
Lemma dot_selects_any_text :
  emails (Ok [plain_doc]) (Some ".")
  = Some (mkResponse 200 (PDocs [plain_doc]))
  /\ filter (spec_filter (Some ".")) [plain_doc] = [].
Proof. split; reflexivity. Qed.

(** C2, amended.  For a query string with no operator of the pattern
    language, [GET /emails?search=q] answers with exactly the stored
    documents whose [to], [subject] or [body] contains [q], letter
    case apart, newest first; with no query, or an empty one, it
    answers with all the documents, newest first.  Any other query
    string is read as a pattern. *)
Theorem emails_search (docs : list EmailDoc) (search : option string) :
  plain_search search = true ->
  exists found,
    emails (Ok docs) search = Some (mkResponse 200 (PDocs found))
    /\ Permutation found (filter (spec_filter search) docs)
    /\ Sorted newest_first found.
Proof.
  intros Hq. exists (sort_desc (filter (spec_filter search) docs)).
  split; [|split].
  - unfold emails. now rewrite (find_plain search docs Hq).
  - apply sort_desc_perm.
  - apply sort_desc_sorted.
Qed.

Lemma emails_search_witness :
  exists found,
    emails (Ok [older_doc; plain_doc; newer_doc]) (Some "hello")
    = Some (mkResponse 200 (PDocs found))
    /\ Permutation found
         (filter (spec_filter (Some "hello"))
            [older_doc; plain_doc; newer_doc])
    /\ Sorted newest_first found.
Proof.
  apply (emails_search [older_doc; plain_doc; newer_doc] (Some "hello")).
  reflexivity.
Defined.

End EmailsClaims.

(* ------------------------------------------------------------------ *)
(** * The runs of the send-email handler, call by call *)

Module SendRuns.
Import Text Render SendEmail SendFacts.

Section Runs.
Variable w : World.

Lemma stopped_step (key : JsVal) (keys : list JsVal) (e : JsError)
    (tr tr' : list Event) :
  stopped w keys e (tr ++ [EvFetch key true]) tr' ->
  stopped w (key :: keys) e tr tr'.
Proof.
  intros (done & rest & -> & H).
  exists (key :: done), rest. split; [reflexivity|].
  destruct H as [->|(k & rest' & -> & Hk & ->)].
  - left. now rewrite <- app_assoc.
  - right. exists k, rest'. repeat split; [assumption|].
    now rewrite <- app_assoc.
Qed.

Lemma stopped_now (key : JsVal) (keys : list JsVal) (e : JsError)
    (tr tr' : list Event) :
  tr' = tr ++ [EvFetch key true]
  \/ (s3_getObject w key = Throw e /\ tr' = tr ++ [EvFetch key false]) ->
  stopped w (key :: keys) e tr tr'.
Proof.
  intros [->|[Hk ->]].
  - exists [key], keys. split; [reflexivity|]. now left.
  - exists [], (key :: keys). split; [reflexivity|].
    right. exists key, keys. now repeat split.
Qed.

Lemma stopped_later (before keys : list JsVal) (e : JsError)
    (tr' : list Event) :
  stopped w keys e ([] ++ fetched before) tr' ->
  stopped w (before ++ keys) e [] tr'.
Proof.
  intros (done & rest & -> & H).
  exists (before ++ done), rest. split; [now rewrite app_assoc|].
  unfold fetched in *. rewrite map_app.
  destruct H as [->|(k & rest' & -> & Hk & ->)].
  - now left.
  - right. exists k, rest'. repeat split; [assumption|].
    simpl. now rewrite <- app_assoc.
Qed.

Lemma stopped_early (keys after : list JsVal) (e : JsError)
    (tr' : list Event) :
  stopped w keys e [] tr' -> stopped w (keys ++ after) e [] tr'.
Proof.
  intros (done & rest & -> & H).
  exists done, (rest ++ after). split; [now rewrite app_assoc|].
  destruct H as [->|(k & rest' & -> & Hk & ->)].
  - now left.
  - right. exists k, (rest' ++ after). now repeat split.
Qed.

(** The loop over [embeddedImageKeys]: the parts and records it adds,
    or where it stops. *)
Lemma embed_loop_run (keys : list JsVal) :
  forall (i : nat) (st : Locals) (tr : list Event),
  match embed_loop w keys i st tr with
  | (Ok st', tr') =>
      tr' = tr ++ fetched keys
      /\ exists ps ls,
           embedded w i keys ps ls
           /\ parts st' = parts st ++ ps
           /\ embeddedImageLogs st' = embeddedImageLogs st ++ ls
           /\ attachmentLogs st' = attachmentLogs st
  | (Throw e, tr') => stopped w keys e tr tr'
  end.
Proof.
  induction keys as [|key keys IH]; intros i st tr.
  - simpl. unfold ret, fetched. simpl. rewrite app_nil_r.
    split; [reflexivity|]. exists [], []. rewrite !app_nil_r.
    repeat split. constructor.
  - simpl embed_loop. unfold bind at 1.
    pose proof (embed_one_cases w i key st tr) as H1.
    destruct (embed_one w i key st tr) as [[st1|e] tr1].
    + destruct H1 as (file & s & Hf & Hk & -> & ->).
      specialize (IH (S i)
        (mkLocals
           (parts st ++
              [mkPart (base64 (Body file)) (pop (split "/" s))
                 (ContentType file) "inline"
                 (Some ("image-" ++ dec (i + 1))%string)])
           (embeddedImageCids st ++ [("image-" ++ dec (i + 1))%string])
           (embeddedImageLogs st ++
              [mkImageLog ("image-" ++ dec (i + 1))%string
                 (pop (split "/" s)) s (ContentType file)
                 (String.length (Body file))])
           (attachmentLogs st))
        (tr ++ [EvFetch key true])).
      destruct (embed_loop w keys (S i) _ _) as [[st2|e] tr2].
      * destruct IH as (-> & ps & ls & He & Hp & Hl & Ha).
        simpl in Hp, Hl, Ha. split.
        { unfold fetched. simpl. now rewrite <- app_assoc. }
        eexists (_ :: ps), (_ :: ls). subst key.
        split; [econstructor; eassumption|].
        rewrite Hp, Hl, Ha, <- !app_assoc. now repeat split.
      * now apply stopped_step.
    + now apply stopped_now.
Qed.

(** The loop over [attachmentKeys]. *)
Lemma attach_loop_run (keys : list JsVal) :
  forall (st : Locals) (tr : list Event),
  match attach_loop w keys st tr with
  | (Ok st', tr') =>
      tr' = tr ++ fetched keys
      /\ exists ps ls,
           attached w keys ps ls
           /\ parts st' = parts st ++ ps
           /\ attachmentLogs st' = attachmentLogs st ++ ls
           /\ embeddedImageLogs st' = embeddedImageLogs st
  | (Throw e, tr') => stopped w keys e tr tr'
  end.
Proof.
  induction keys as [|key keys IH]; intros st tr.
  - simpl. unfold ret, fetched. simpl. rewrite app_nil_r.
    split; [reflexivity|]. exists [], []. rewrite !app_nil_r.
    repeat split. constructor.
  - simpl attach_loop. unfold bind at 1.
    pose proof (attach_one_cases w key st tr) as H1.
    destruct (attach_one w key st tr) as [[st1|e] tr1].
    + destruct H1 as (file & s & Hf & Hk & -> & ->).
      specialize (IH
        (mkLocals
           (parts st ++
              [mkPart (base64 (Body file)) (pop (split "/" s))
                 (ContentType file) "attachment" None])
           (embeddedImageCids st)
           (embeddedImageLogs st)
           (attachmentLogs st ++
              [mkAttachmentLog (pop (split "/" s)) s (ContentType file)
                 (String.length (Body file))]))
        (tr ++ [EvFetch key true])).
      destruct (attach_loop w keys _ _) as [[st2|e] tr2].
      * destruct IH as (-> & ps & ls & He & Hp & Hl & Ha).
        simpl in Hp, Hl, Ha. split.
        { unfold fetched. simpl. now rewrite <- app_assoc. }
        eexists (_ :: ps), (_ :: ls). subst key.
        split; [econstructor; eassumption|].
        rewrite Hp, Hl, Ha, <- !app_assoc. now repeat split.
      * now apply stopped_step.
    + now apply stopped_now.
Qed.

(** Composition, call by call: all the keys are fetched and the parts
    and records are those of the keys; or the run stops. *)
Lemma compose_run (req : Request) :
  match compose w req [] with
  | (Ok (m, entry), tr) =>
      tr = fetched (all_keys req)
      /\ exists ips aps,
           msg_attachments m = ips ++ aps
           /\ embedded w 0 (keys_of (embeddedImageKeys req)) ips
                (embeddedImages entry)
           /\ attached w (keys_of (attachmentKeys req)) aps
                (attachments entry)
  | (Throw e, tr) => stopped w (all_keys req) e [] tr
  end.
Proof.
  unfold compose. unfold bind at 1.
  pose proof (embed_loop_run (keys_of (embeddedImageKeys req))
                0 no_locals []) as H1.
  destruct (embed_loop w _ 0 no_locals []) as [[st1|e] tr1].
  2: { now apply stopped_early. }
  destruct H1 as (-> & ips & ils & Hemb & Hp1 & Hl1 & Ha1).
  simpl in Hp1, Hl1, Ha1.
  unfold bind at 1.
  destruct (html_and_text_cases req (embeddedImageCids st1)
              ([] ++ fetched (keys_of (embeddedImageKeys req))))
    as (r & Hr & _).
  rewrite Hr. destruct r as [ht|e].
  2: { exists (keys_of (embeddedImageKeys req)),
         (keys_of (attachmentKeys req)).
       split; [reflexivity|]. now left. }
  unfold bind at 1.
  pose proof (attach_loop_run (keys_of (attachmentKeys req)) st1
                ([] ++ fetched (keys_of (embeddedImageKeys req)))) as H2.
  destruct (attach_loop w _ st1 _) as [[st2|e] tr2].
  2: { now apply stopped_later. }
  destruct H2 as (-> & aps & als & Hatt & Hp2 & Hl2 & Ha2).
  unfold ret. split.
  - unfold all_keys, fetched. now rewrite map_app.
  - exists ips, aps. simpl.
    rewrite Hp2, Hp1, Hl2, Ha2, Hl1, Ha1. now repeat split.
Qed.

(** When [msg.html] and [msg.text] cannot be built, composition stops
    within the embedded images or right after them, with error [e] of
    the conversion in the second case. *)
Lemma compose_without_content (req : Request) (error : JsError) :
  (forall cids tr, html_and_text req cids tr = (Throw error, tr)) ->
  exists e tr,
    compose w req [] = (Throw e, tr)
    /\ (stopped w (keys_of (embeddedImageKeys req)) e [] tr
        \/ (e = error /\ tr = fetched (keys_of (embeddedImageKeys req)))).
Proof.
  intros Hbad. unfold compose. unfold bind at 1.
  pose proof (embed_loop_run (keys_of (embeddedImageKeys req))
                0 no_locals []) as H1.
  destruct (embed_loop w _ 0 no_locals []) as [[st1|e] tr1].
  - destruct H1 as (-> & _). unfold bind at 1. rewrite Hbad.
    do 2 eexists. split; [reflexivity|]. right. now split.
  - do 2 eexists. split; [reflexivity|]. now left.
Qed.

(** The handler as composition followed by delivery and logging. *)
Lemma send_email_run (req : Request) :
  valid req = true ->
  send_email w req
  = match compose w req [] with
    | (Ok (m, entry), tr) =>
        (Some (fst (finish w req m entry)), tr ++ snd (finish w req m entry))
    | (Throw e, tr) => (Some (failure e), tr)
    end.
Proof.
  intros Hv. unfold send_email, handler. rewrite valid_guard, Hv.
  cbn [negb]. unfold try_catch, try_block. unfold bind at 1.
  destruct (compose w req []) as [[[m entry]|e] tr]; [|reflexivity].
  cbn [fst snd]. unfold bind, await, ret, finish.
  destruct (sgMail_send w m) as [[]|e]; cbn [is_ok]; [|reflexivity].
  destruct (EmailLog_create w entry) as [[]|e]; cbn [is_ok fst snd];
    now rewrite <- app_assoc.
Qed.

Lemma send_email_invalid (req : Request) :
  valid req = false -> send_email w req = (Some missing_fields, []).
Proof.
  intros Hv. unfold send_email, handler. now rewrite valid_guard, Hv.
Qed.

(** One turn of either loop makes one fetch, and goes on exactly when
    the key is usable. *)
Lemma embed_one_fetch (i : nat) (key : JsVal) (st : Locals)
    (tr : list Event) :
  snd (embed_one w i key st tr)
  = tr ++ [EvFetch key (is_ok (s3_getObject w key))]
  /\ is_ok (fst (embed_one w i key st tr)) = usable w key.
Proof.
  unfold embed_one, getFileFromS3, bind, await, usable.
  destruct (s3_getObject w key) as [file|e]; simpl; [|now split].
  destruct key; simpl; now split.
Qed.

Lemma attach_one_fetch (key : JsVal) (st : Locals) (tr : list Event) :
  snd (attach_one w key st tr)
  = tr ++ [EvFetch key (is_ok (s3_getObject w key))]
  /\ is_ok (fst (attach_one w key st tr)) = usable w key.
Proof.
  unfold attach_one, getFileFromS3, bind, await, usable.
  destruct (s3_getObject w key) as [file|e]; simpl; [|now split].
  destruct key; simpl; now split.
Qed.

Lemma fetches_snoc (tr : list Event) (k : JsVal) (ok : bool) :
  fetches (tr ++ [EvFetch k ok]) = fetches tr ++ [(k, ok)].
Proof. unfold fetches. now rewrite flat_map_app. Qed.

Lemma embed_loop_fetches (keys : list JsVal) :
  forall (i : nat) (st : Locals) (tr : list Event),
  fetches (snd (embed_loop w keys i st tr))
  = fetches tr ++ fetch_until w keys
  /\ is_ok (fst (embed_loop w keys i st tr)) = forallb (usable w) keys.
Proof.
  induction keys as [|key keys IH]; intros i st tr.
  - simpl. now rewrite app_nil_r.
  - cbn [embed_loop]. unfold bind.
    destruct (embed_one_fetch i key st tr) as [Ht Hok].
    destruct (embed_one w i key st tr) as [[st1|e] tr1];
      simpl in Ht, Hok; subst tr1; cbn [forallb fetch_until];
      rewrite <- Hok.
    + destruct (IH (S i) st1 (tr ++ [EvFetch key (is_ok (s3_getObject w key))]))
        as [IH1 IH2].
      rewrite IH1, IH2, fetches_snoc, <- app_assoc. now split.
    + cbn [fst snd]. now rewrite fetches_snoc.
Qed.

Lemma attach_loop_fetches (keys : list JsVal) :
  forall (st : Locals) (tr : list Event),
  fetches (snd (attach_loop w keys st tr))
  = fetches tr ++ fetch_until w keys
  /\ is_ok (fst (attach_loop w keys st tr)) = forallb (usable w) keys.
Proof.
  induction keys as [|key keys IH]; intros st tr.
  - simpl. now rewrite app_nil_r.
  - cbn [attach_loop]. unfold bind.
    destruct (attach_one_fetch key st tr) as [Ht Hok].
    destruct (attach_one w key st tr) as [[st1|e] tr1];
      simpl in Ht, Hok; subst tr1; cbn [forallb fetch_until];
      rewrite <- Hok.
    + destruct (IH st1 (tr ++ [EvFetch key (is_ok (s3_getObject w key))]))
        as [IH1 IH2].
      rewrite IH1, IH2, fetches_snoc, <- app_assoc. now split.
    + cbn [fst snd]. now rewrite fetches_snoc.
Qed.

Lemma fetch_until_app (a b : list JsVal) :
  fetch_until w (a ++ b)
  = if forallb (usable w) a
    then map (fun k => (k, true)) a ++ fetch_until w b
    else fetch_until w a.
Proof.
  induction a as [|k a IH]; [reflexivity|].
  cbn [app fetch_until forallb]. rewrite IH. unfold usable at 1 3 5.
  destruct (s3_getObject w k) as [file|e]; [|reflexivity].
  cbn [is_ok andb]. destruct (is_string k); cbn [andb]; [|reflexivity].
  now destruct (forallb (usable w) a).
Qed.

Lemma fetch_until_all (keys : list JsVal) :
  forallb (usable w) keys = true ->
  fetch_until w keys = map (fun k => (k, true)) keys.
Proof.
  intros H. rewrite <- (app_nil_r keys) at 1.
  now rewrite fetch_until_app, H, app_nil_r.
Qed.

(** Building the content calls no service, and succeeds exactly when
    the content can be built. *)
Lemma html_and_text_ok (req : Request) (cids : list string)
    (tr : list Event) :
  snd (html_and_text req cids tr) = tr
  /\ is_ok (fst (html_and_text req cids tr)) = content_ok req.
Proof.
  unfold html_and_text, content_ok.
  destruct (truthy (useHtmlTemplate req)).
  - unfold bind, of_option, generateHTMLEmail.
    destruct (to_string (req_subject req)); [|now split].
    destruct (to_string (req_body req)); now split.
  - unfold bind, body_replace. destruct (req_body req); now split.
Qed.

(** The fetches of composition. *)
Lemma compose_fetches (req : Request) :
  fetches (snd (compose w req [])) = fetch_until w (keys_in_turn req)
  /\ is_ok (fst (compose w req []))
     = forallb (usable w) (keys_in_turn req)
       && content_ok req.
Proof.
  unfold compose, keys_in_turn. unfold bind at 1 4.
  destruct (embed_loop_fetches (keys_of (embeddedImageKeys req))
              0 no_locals []) as [H1 H1'].
  rewrite fetch_until_app, forallb_app, <- H1'.
  destruct (embed_loop w _ 0 no_locals []) as [[st1|e] tr1];
    cbn [fst snd is_ok andb] in *; [|now split].
  rewrite fetch_until_all in H1 by (now symmetry).
  cbn [fetches flat_map app] in H1. rewrite <- H1.
  unfold bind at 1 3.
  destruct (html_and_text_ok req (embeddedImageCids st1) tr1) as [H2 H2'].
  destruct (html_and_text req _ tr1) as [[ht|e] tr2];
    cbn [fst snd is_ok] in *; subst tr2; rewrite <- H2';
    [|cbn [fetch_until forallb]; rewrite app_nil_r; now split].
  unfold bind, ret.
  destruct (attach_loop_fetches (keys_of (attachmentKeys req)) st1 tr1)
    as [H3 H3'].
  destruct (attach_loop w _ st1 tr1) as [[st2|e] tr3];
    cbn [fst snd is_ok] in *; rewrite H3, <- H3'.
  all: now split.
Qed.

End Runs.

(** Traces, service by service. *)
Lemma fetches_app (a b : list Event) : fetches (a ++ b) = fetches a ++ fetches b.
Proof. apply flat_map_app. Qed.

Lemma deliveries_app (a b : list Event) :
  deliveries (a ++ b) = deliveries a ++ deliveries b.
Proof. apply flat_map_app. Qed.

Lemma log_writes_app (a b : list Event) :
  log_writes (a ++ b) = log_writes a ++ log_writes b.
Proof. apply flat_map_app. Qed.

Lemma fetches_fetched (keys : list JsVal) :
  fetches (fetched keys) = map (fun k => (k, true)) keys.
Proof. induction keys as [|k keys IH]; simpl; [|rewrite IH]; reflexivity. Qed.

Lemma deliveries_fetched (keys : list JsVal) : deliveries (fetched keys) = [].
Proof. induction keys as [|k keys IH]; simpl; [|rewrite IH]; reflexivity. Qed.

Lemma log_writes_fetched (keys : list JsVal) : log_writes (fetched keys) = [].
Proof. induction keys as [|k keys IH]; simpl; [|rewrite IH]; reflexivity. Qed.

End SendRuns.

(* ------------------------------------------------------------------ *)
(** * Further properties of POST /send-email *)

Module SendExtras.
Import Text Render SendEmail SendFacts SendRuns Examples.

Lemma finish_no_fetch (w : World) (req : Request) (m : Msg)
    (entry : LogEntry) :
  fetches (snd (finish w req m entry)) = [].
Proof.
  unfold finish. destruct (sgMail_send w m); [|reflexivity].
  now destruct (EmailLog_create w entry).
Qed.

Lemma stopped_quiet (w : World) (keys : list JsVal) (e : JsError)
    (tr : list Event) :
  stopped w keys e [] tr -> deliveries tr = [] /\ log_writes tr = [].
Proof.
  intros (done & rest & _ & [->|(k & rest' & _ & _ & ->)]); simpl;
    rewrite ?deliveries_app, ?log_writes_app, deliveries_fetched,
      log_writes_fetched; now split.
Qed.

(** Where an event of a given kind can be in the trace of a run. *)
Lemma run_cases (w : World) (req : Request) :
  (send_email w req = (Some missing_fields, []) /\ valid req = false)
  \/ (valid req = true
      /\ exists e tr,
           compose w req [] = (Throw e, tr)
           /\ stopped w (all_keys req) e [] tr
           /\ send_email w req = (Some (failure e), tr))
  \/ (valid req = true
      /\ exists m entry,
           compose w req [] = (Ok (m, entry), fetched (all_keys req))
           /\ send_email w req
              = (Some (fst (finish w req m entry)),
                 fetched (all_keys req) ++ snd (finish w req m entry))).
Proof.
  destruct (valid req) eqn:Hv.
  - right. rewrite (send_email_run w req Hv).
    pose proof (compose_run w req) as Hc.
    destruct (compose w req []) as [[[m entry]|e] tr].
    + right. destruct Hc as (-> & _). split; [reflexivity|].
      now exists m, entry.
    + left. split; [reflexivity|]. now exists e, tr.
  - left. now rewrite (send_email_invalid w req Hv).
Qed.

(** X1.  A request that fails validation fetches nothing.  One that
    passes fetches its keys in the order of the request, those of
    [embeddedImageKeys] before those of [attachmentKeys], one fetch per
    key, and stops after the first key that is not usable: one whose
    fetch fails, or one that is not a string.  The attachment keys are
    fetched only when the content of the message could be built.  So
    when every key is usable and the content can be built, the fetches
    are those of all the keys, each once, each successful.  After a
    fetch that failed, nothing is delivered or logged. *)
Theorem fetches_follow_request (w : World) (req : Request) :
  fetches (snd (send_email w req))
  = (if valid req then fetch_until w (keys_in_turn req) else [])
  /\ (valid req = true -> content_ok req = true ->
      forallb (usable w) (all_keys req) = true ->
      fetches (snd (send_email w req))
      = map (fun k => (k, true)) (all_keys req))
  /\ (forall k, In (k, false) (fetches (snd (send_email w req))) ->
      is_ok (s3_getObject w k) = false
      /\ (exists done, fetches (snd (send_email w req))
                       = map (fun k => (k, true)) done ++ [(k, false)])
      /\ deliveries (snd (send_email w req)) = []
      /\ log_writes (snd (send_email w req)) = []).
Proof.
  assert (Heq : fetches (snd (send_email w req))
                = if valid req then fetch_until w (keys_in_turn req)
                  else []).
  { destruct (valid req) eqn:Hv.
    - rewrite (send_email_run w req Hv).
      destruct (compose_fetches w req) as [Hf _].
      destruct (compose w req []) as [[[m entry]|e] tr]; cbn [snd] in *;
        [|assumption].
      now rewrite fetches_app, finish_no_fetch, app_nil_r.
    - now rewrite (send_email_invalid w req Hv). }
  split; [exact Heq|]. split.
  - intros Hv Hc Hall. rewrite Heq, Hv. unfold keys_in_turn. rewrite Hc.
    now apply fetch_until_all.
  - intros k Hin.
    destruct (run_cases w req)
      as [[Hr _]|[(Hv & e & tr & Hc & Hs & Hr)|(Hv & m & entry & Hc & Hr)]];
      rewrite Hr in *; cbn [snd] in *.
    + destruct Hin.
    + destruct (stopped_quiet w _ e tr Hs) as [Hd Hl].
      destruct Hs as (done & rest & _ & [->|(k' & rest' & _ & Hk & ->)]);
        cbn [app] in *.
      * rewrite fetches_fetched in Hin.
        apply in_map_iff in Hin as (? & [=] & _).
      * rewrite fetches_snoc, fetches_fetched in Hin |- *.
        apply in_app_or in Hin as [Hin|[[= <-]|[]]].
        { apply in_map_iff in Hin as (? & [=] & _). }
        rewrite Hk. repeat split; try assumption. now exists done.
    + rewrite fetches_app, finish_no_fetch, app_nil_r, fetches_fetched
        in Hin.
      apply in_map_iff in Hin as (? & [=] & _).
Qed.

Lemma fetches_follow_request_witness :
  fetches (snd (send_email missing_object with_files))
  = [(JStr "img/logo.png", true); (JStr "docs/gone.png", true);
     (JStr "gone.png", false)].
Proof.
  destruct (fetches_follow_request missing_object with_files) as [H _].
  rewrite H. reflexivity.
Defined.

(** X2.  One request makes at most one delivery and at most one log
    write; a log write is made only after a delivery that succeeded,
    and a delivery only after every key was fetched with success. *)
Theorem one_delivery_one_log (w : World) (req : Request) :
  List.length (deliveries (snd (send_email w req))) <= 1
  /\ List.length (log_writes (snd (send_email w req))) <= 1
  /\ (log_writes (snd (send_email w req)) <> [] ->
      exists m, deliveries (snd (send_email w req)) = [(m, true)])
  /\ (deliveries (snd (send_email w req)) <> [] ->
      valid req = true
      /\ fetches (snd (send_email w req))
         = map (fun k => (k, true)) (all_keys req)).
Proof.
  destruct (valid req) eqn:Hv.
  - rewrite (send_email_run w req Hv).
    pose proof (compose_run w req) as Hc.
    destruct (compose w req []) as [[[m entry]|e] tr].
    + destruct Hc as (-> & _). cbn [snd].
      rewrite deliveries_app, log_writes_app, fetches_app,
        deliveries_fetched, log_writes_fetched, fetches_fetched,
        finish_no_fetch, app_nil_r.
      unfold finish. destruct (sgMail_send w m) as [[]|e].
      * destruct (EmailLog_create w entry) as [[]|e]; simpl;
          repeat split; try lia; intros _; now exists m.
      * simpl. repeat split; try lia. congruence.
    + cbn [snd]. destruct (stopped_quiet w _ e tr Hc) as [-> ->].
      simpl. repeat split; try lia; congruence.
  - rewrite (send_email_invalid w req Hv). simpl.
    repeat split; try lia; congruence.
Qed.

Lemma in_fetched (keys : list JsVal) (e : Event) :
  In e (fetched keys) -> exists k, In k keys /\ e = EvFetch k true.
Proof.
  unfold fetched. intros H. apply in_map_iff in H as (k & <- & Hk).
  now exists k.
Qed.

Lemma in_stopped (w : World) (keys : list JsVal) (err : JsError)
    (tr : list Event) (e : Event) :
  stopped w keys err [] tr -> In e tr ->
  exists k, In k keys
            /\ (e = EvFetch k true
                \/ (e = EvFetch k false /\ s3_getObject w k = Throw err
                    /\ exists done, tr = fetched done ++ [EvFetch k false])).
Proof.
  intros (done & rest & -> & [->|(k & rest' & -> & Hk & ->)]) He;
    simpl in He.
  - apply in_fetched in He as (k & Hin & ->). exists k.
    split; [apply in_or_app; now left|now left].
  - apply in_app_or in He as [He|[<-|[]]].
    + apply in_fetched in He as (k' & Hin & ->). exists k'.
      split; [apply in_or_app; now left|now left].
    + exists k. split; [apply in_or_app; right; now left|].
      right. repeat split; [assumption|]. now exists done.
Qed.

Lemma in_finish (w : World) (req : Request) (m : Msg) (entry : LogEntry)
    (e : Event) :
  In e (snd (finish w req m entry)) ->
  (exists ok, e = EvSend m ok /\ is_ok (sgMail_send w m) = ok)
  \/ (exists ok, e = EvLog entry ok /\ sgMail_send w m = Ok tt
                 /\ is_ok (EmailLog_create w entry) = ok).
Proof.
  unfold finish. destruct (sgMail_send w m) as [[]|err] eqn:Es.
  - destruct (EmailLog_create w entry) as [[]|err] eqn:El; simpl;
      intros [<-|[<-|[]]];
      solve [left; now eexists|right; now eexists].
  - simpl. intros [<-|[]]. left. now eexists.
Qed.

(** X3.  When the mail provider rejects the message, the answer is 500
    and carries the body of the provider's response when the error has
    one, and its message otherwise; no log write is made. *)
Theorem delivery_failure_reported (w : World) (req : Request) (m : Msg) :
  In (EvSend m false) (snd (send_email w req)) ->
  exists error,
    sgMail_send w m = Throw error
    /\ send_email w req
       = (Some (mkResponse 500
                  (PJson (JObj [("message", JStr "Failed to send email");
                                ("error",
                                 match response_body error with
                                 | Some b => b
                                 | None => JStr (message error)
                                 end)]))),
          fetched (all_keys req) ++ [EvSend m false]).
Proof.
  intros Hin.
  destruct (run_cases w req) as [[E _]|[(_ & e & tr & _ & Hs & E)
                                       |(_ & m0 & entry & _ & E)]];
    rewrite E in *; cbn [snd] in Hin.
  - destruct Hin.
  - apply (in_stopped w (all_keys req) e tr _ Hs) in Hin.
    destruct Hin as (k & _ & [H|(H & _)]); discriminate.
  - apply in_app_or in Hin as [Hin|Hin].
    { apply in_fetched in Hin as (k & _ & H). discriminate. }
    pose proof Hin as Hin'.
    apply in_finish in Hin' as [(ok & H & Hok)|(ok & H & _)];
      [|discriminate].
    injection H as <- <-. unfold finish in *.
    destruct (sgMail_send w m) as [[]|error]; [discriminate|].
    exists error. split; reflexivity.
Qed.

Lemma delivery_failure_reported_witness :
  exists m,
    send_email provider_down hello
    = (Some (mkResponse 500
               (PJson (JObj [("message", JStr "Failed to send email");
                             ("error",
                              JObj [("errors",
                                     JArr [JObj [("message",
                                                  JStr "access denied")]])])]))),
       [EvSend m false]).
Proof.
  eexists.
  edestruct (delivery_failure_reported provider_down hello) as (err & He & E).
  - cbv. left. reflexivity.
  - injection He as <-. exact E.
Defined.

(** X4.  When a fetch fails, that fetch is the last call of the
    request, and the answer is 500 with the error of the object store,
    which [getFileFromS3] throws again as it got it. *)
Theorem fetch_failure_reported (w : World) (req : Request) (key : JsVal) :
  In (EvFetch key false) (snd (send_email w req)) ->
  exists error done,
    s3_getObject w key = Throw error
    /\ send_email w req
       = (Some (failure error), fetched done ++ [EvFetch key false])
    /\ payload (failure error)
       = PJson (JObj [("message", JStr "Failed to send email");
                      ("error",
                       match response_body error with
                       | Some b => b
                       | None => JStr (message error)
                       end)]).
Proof.
  intros Hin.
  destruct (run_cases w req) as [[E _]|[(_ & e & tr & _ & Hs & E)
                                       |(_ & m0 & entry & _ & E)]];
    rewrite E in *; cbn [snd] in Hin.
  - destruct Hin.
  - apply (in_stopped w (all_keys req) e tr _ Hs) in Hin.
    destruct Hin as (k & _ & [H|(H & Hk & done & ->)]); [discriminate|].
    injection H as <-. exists e, done. now repeat split.
  - apply in_app_or in Hin as [Hin|Hin].
    + apply in_fetched in Hin as (k & _ & H). discriminate.
    + apply in_finish in Hin as [(ok & H & _)|(ok & H & _)]; discriminate.
Qed.

Lemma fetch_failure_reported_witness :
  exists done,
    send_email missing_object with_files
    = (Some (mkResponse 500
               (PJson (JObj [("message", JStr "Failed to send email");
                             ("error",
                              JStr "The specified key does not exist.")]))),
       fetched done ++ [EvFetch (JStr "gone.png") false]).
Proof.
  edestruct (fetch_failure_reported missing_object with_files
               (JStr "gone.png")) as (err & done & He & E & _).
  - cbv. right. right. left. reflexivity.
  - injection He as <-. exists done. exact E.
Defined.

(** X5.  Every request is answered, with 400, 500 or 200: with 400
    exactly when a required field is missing or false, whatever the
    services would do; with 200 exactly when the log write succeeded. *)
Theorem answer_classes (w : World) (req : Request) :
  exists res,
    fst (send_email w req) = Some res
    /\ (status res = 400 <-> valid req = false)
    /\ (status res = 200 <->
        exists entry, In (EvLog entry true) (snd (send_email w req)))
    /\ (status res = 200 \/ status res = 400 \/ status res = 500).
Proof.
  destruct (run_cases w req) as [[E Hv]|[(Hv & e & tr & _ & Hs & E)
                                       |(Hv & m & entry & _ & E)]];
    rewrite E; cbn [fst snd]; eexists; (split; [reflexivity|]).
  - repeat split; auto; try discriminate.
    + intros [entry []].
  - repeat split; auto; try discriminate; try congruence.
    intros [entry Hin].
    apply (in_stopped w (all_keys req) e tr _ Hs) in Hin.
    destruct Hin as (k & _ & [H|(H & _)]); discriminate.
  - unfold finish.
    destruct (sgMail_send w m) as [[]|err];
      [destruct (EmailLog_create w entry) as [[]|err]|];
      cbn [fst snd status success failure];
      repeat split; auto; try discriminate; try congruence.
    + intros _. exists entry. apply in_or_app. right. right. now left.
    + intros [x Hin]. apply in_app_or in Hin as [Hin|[Hin|[Hin|[]]]];
        try discriminate.
      apply in_fetched in Hin as (k & _ & H). discriminate.
    + intros [x Hin]. apply in_app_or in Hin as [Hin|[Hin|[]]];
        try discriminate.
      apply in_fetched in Hin as (k & _ & H). discriminate.
Qed.

(** A message handed to the provider is the one that was composed,
    after every key was fetched; a log write, if there is one, is of
    the entry composed with it and follows a delivery that succeeded. *)
Lemma sent_compose (w : World) (req : Request) (m : Msg) (ok : bool) :
  In (EvSend m ok) (snd (send_email w req)) ->
  exists entry,
    compose w req [] = (Ok (m, entry), fetched (all_keys req))
    /\ forall e ok',
         In (EvLog e ok') (snd (send_email w req)) -> e = entry /\ ok = true.
Proof.
  intros Hin.
  destruct (run_cases w req) as [[E _]|[(_ & e & tr & _ & Hs & E)
                                       |(_ & m0 & entry & Hc & E)]];
    rewrite E in *; cbn [snd] in *.
  - destruct Hin.
  - apply (in_stopped w (all_keys req) e tr _ Hs) in Hin.
    destruct Hin as (k & _ & [H|(H & _)]); discriminate.
  - apply in_app_or in Hin as [Hin|Hin].
    { apply in_fetched in Hin as (k & _ & H). discriminate. }
    apply in_finish in Hin as [(o & H & Hok)|(o & H & _)]; [|discriminate].
    injection H as <- <-. exists entry. split; [assumption|].
    intros e0 ok' He. apply in_app_or in He as [He|He].
    { apply in_fetched in He as (k & _ & H). discriminate. }
    apply in_finish in He as [(o & H & _)|(o & H & Hs & _)];
      [discriminate|].
    injection H as <- _. rewrite Hs in Hok. now split.
Qed.

(** X6.  The log entry agrees with the message that was delivered: the
    same recipient and subject, the HTML part as [htmlBody], and as
    [body] the body of the request, which is the text part of the
    message when the template is used. *)
Theorem log_matches_message (w : World) (req : Request) (m : Msg)
    (entry : LogEntry) (ok ok' : bool) :
  In (EvSend m ok) (snd (send_email w req)) ->
  In (EvLog entry ok') (snd (send_email w req)) ->
  ok = true
  /\ to entry = msg_to m
  /\ subject entry = msg_subject m
  /\ htmlBody entry = html m
  /\ body entry = req_body req
  /\ (truthy (useHtmlTemplate req) = true -> text m = body entry).
Proof.
  intros Hs Hl.
  destruct (sent_compose w req m ok Hs) as (entry0 & Hc & Hlog).
  destruct (Hlog entry ok' Hl) as [-> ->].
  pose proof (compose_cases w req) as Hcc. rewrite Hc in Hcc.
  destruct Hcc as [_ C].
  rewrite (c_log_to _ _ _ _ C), (c_to _ _ _ _ C),
    (c_log_subject _ _ _ _ C), (c_subject _ _ _ _ C),
    (c_log_html _ _ _ _ C), (c_log_body _ _ _ _ C).
  repeat split.
  intros Htpl. pose proof (c_content _ _ _ _ C) as Hcontent.
  rewrite Htpl in Hcontent. now destruct Hcontent as (h & _ & _ & ->).
Qed.

Lemma log_matches_message_witness :
  exists m entry,
    snd (send_email all_up logo_and_report)
    = fetched (all_keys logo_and_report) ++ [EvSend m true; EvLog entry true]
    /\ to entry = msg_to m
    /\ htmlBody entry = html m
    /\ text m = body entry.
Proof.
  vm_compute. do 2 eexists. split; [reflexivity|].
  edestruct (log_matches_message all_up logo_and_report)
    as (_ & Ht & _ & Hh & _ & Hb).
  - cbv. right. right. left. reflexivity.
  - cbv. right. right. right. left. reflexivity.
  - split; [exact Ht|]. split; [exact Hh|]. now apply Hb.
Defined.

(** X7.  The attachments of a delivered message are the inline parts
    of the embedded images, in the order of their keys, followed by the
    parts of the attachments, in the order of theirs.  Each part holds
    the base64 text of the object fetched for its key, the content type
    of that object, and as file name what follows the last [/] of the
    key; an inline part has the content-id [image-<position>]; and the
    log entry records for each key the same name and type, the key, and
    the number of bytes of the object. *)
Theorem parts_follow_keys (w : World) (req : Request) (m : Msg) (ok : bool) :
  In (EvSend m ok) (snd (send_email w req)) ->
  exists ips aps ils als,
    msg_attachments m = ips ++ aps
    /\ embedded w 0 (keys_of (embeddedImageKeys req)) ips ils
    /\ attached w (keys_of (attachmentKeys req)) aps als
    /\ forall entry ok',
         In (EvLog entry ok') (snd (send_email w req)) ->
         embeddedImages entry = ils /\ attachments entry = als.
Proof.
  intros Hs.
  destruct (sent_compose w req m ok Hs) as (entry0 & Hc & Hlog).
  pose proof (compose_run w req) as Hr. rewrite Hc in Hr.
  destruct Hr as (_ & ips & aps & Hm & He & Ha).
  exists ips, aps, (embeddedImages entry0), (attachments entry0).
  repeat split; try assumption;
    destruct (Hlog entry ok' H) as [-> _]; reflexivity.
Qed.

Lemma parts_follow_keys_witness :
  exists m,
    msg_attachments m
    = [mkPart "TWFu" "logo.png" (Some "image/png") "inline" (Some "image-1");
       mkPart "TWFu" "report.pdf" (Some "image/png") "attachment" None].
Proof.
  eexists.
  edestruct (parts_follow_keys all_up logo_and_report)
    as (ips & aps & ils & als & Hm & He & Ha & _).
  - cbv. right. right. left. reflexivity.
  - rewrite Hm.
    inversion He as [|? ? ? ? ? ? Hf He']; subst. inversion He'; subst.
    inversion Ha as [|? ? ? ? ? Hg Ha']; subst. inversion Ha'; subst.
    injection Hf as <-. injection Hg as <-. reflexivity.
Defined.

(** X8.  In a request that passes validation, when the text of the
    message cannot be built, because the template is off and the body
    is not a string, or because the template is on and the subject or
    the body cannot be converted to a string, the answer is 500 and the
    only calls made are fetches of embedded images: no attachment is
    fetched, nothing is delivered, nothing is logged. *)
Theorem content_error_stops_early (w : World) (req : Request) :
  valid req = true ->
  (truthy (useHtmlTemplate req) = false
   /\ forall b, req_body req <> JStr b)
  \/ (truthy (useHtmlTemplate req) = true
      /\ (to_string (req_subject req) = None
          \/ to_string (req_body req) = None)) ->
  exists res,
    fst (send_email w req) = Some res
    /\ status res = 500
    /\ forall e, In e (snd (send_email w req)) ->
         exists k ok,
           e = EvFetch k ok /\ In k (keys_of (embeddedImageKeys req)).
Proof.
  intros Hv Hbad.
  assert (Herr : exists error,
             forall cids tr, html_and_text req cids tr = (Throw error, tr)).
  { unfold html_and_text.
    destruct Hbad as [[-> Hb]|[-> Hs]].
    - exists (TypeError "body.replace is not a function").
      intros cids tr. unfold bind, body_replace.
      destruct (req_body req) as [ | | | |b| | ] eqn:Eb; try reflexivity.
      now destruct (Hb b).
    - exists (TypeError "Cannot convert object to primitive value").
      intros cids tr. unfold bind, of_option, generateHTMLEmail.
      destruct Hs as [-> | ->]; [reflexivity|].
      now destruct (to_string (req_subject req)). }
  destruct Herr as (error & Herr).
  destruct (compose_without_content w req error Herr) as (e & tr & Hc & Htr).
  rewrite (send_email_run w req Hv), Hc. cbn [fst snd].
  eexists. split; [reflexivity|]. split; [reflexivity|].
  intros ev Hin. destruct Htr as [Hs|[_ ->]].
  - apply (in_stopped w _ e tr _ Hs) in Hin.
    destruct Hin as (k & Hk & [->|(-> & _)]); now exists k; eexists.
  - apply in_fetched in Hin as (k & Hk & ->). now exists k, true.
Qed.

Lemma content_error_stops_early_witness :
  exists res,
    fst (send_email all_up number_body) = Some res
    /\ status res = 500
    /\ forall e, In e (snd (send_email all_up number_body)) ->
         exists k ok,
           e = EvFetch k ok /\ In k (keys_of (embeddedImageKeys number_body)).
Proof.
  apply (content_error_stops_early all_up number_body).
  - reflexivity.
  - left. split; [reflexivity|]. discriminate.
Defined.

Lemma embedded_same_shape (w1 w2 : World) (i : nat) (keys : list JsVal)
    (ps1 ps2 : list Part) (ls1 ls2 : list ImageLog) :
  embedded w1 i keys ps1 ls1 -> embedded w2 i keys ps2 ls2 ->
  map part_filename ps1 = map part_filename ps2
  /\ map content_id ps1 = map content_id ps2
  /\ map disposition ps1 = map disposition ps2.
Proof.
  intros H1. revert ps2 ls2.
  induction H1 as [i|i k file keys ps ls Hf H1 IH]; intros ps2 ls2 H2;
    inversion H2 as [|? ? file2 ? ps2' ls2' Hf2 H2']; subst;
    [now repeat split|].
  destruct (IH _ _ H2') as (Hn & Hc & Hd). simpl.
  now rewrite Hn, Hc, Hd.
Qed.

Lemma attached_same_shape (w1 w2 : World) (keys : list JsVal)
    (ps1 ps2 : list Part) (ls1 ls2 : list AttachmentLog) :
  attached w1 keys ps1 ls1 -> attached w2 keys ps2 ls2 ->
  map part_filename ps1 = map part_filename ps2
  /\ map content_id ps1 = map content_id ps2
  /\ map disposition ps1 = map disposition ps2.
Proof.
  intros H1. revert ps2 ls2.
  induction H1 as [|k file keys ps ls Hf H1 IH]; intros ps2 ls2 H2;
    inversion H2 as [|? file2 ? ps2' ls2' Hf2 H2']; subst;
    [now repeat split|].
  destruct (IH _ _ H2') as (Hn & Hc & Hd). simpl.
  now rewrite Hn, Hc, Hd.
Qed.

(** X18.  What the object store holds has no influence on the text of
    the message: two deliveries of the same request, against any two
    worlds, have the same recipient, subject, HTML part and text part,
    and parts with the same file names, content-ids and dispositions.
    Only the content and the content type of a part come from the
    store. *)
Theorem message_independent_of_store (w1 w2 : World) (req : Request)
    (m1 m2 : Msg) (ok1 ok2 : bool) :
  In (EvSend m1 ok1) (snd (send_email w1 req)) ->
  In (EvSend m2 ok2) (snd (send_email w2 req)) ->
  msg_to m1 = msg_to m2
  /\ msg_subject m1 = msg_subject m2
  /\ html m1 = html m2
  /\ text m1 = text m2
  /\ map part_filename (msg_attachments m1)
     = map part_filename (msg_attachments m2)
  /\ map content_id (msg_attachments m1)
     = map content_id (msg_attachments m2)
  /\ map disposition (msg_attachments m1)
     = map disposition (msg_attachments m2).
Proof.
  intros H1 H2.
  destruct (sent_compose w1 req m1 ok1 H1) as (e1 & Hc1 & _).
  destruct (sent_compose w2 req m2 ok2 H2) as (e2 & Hc2 & _).
  pose proof (compose_cases w1 req) as C1. rewrite Hc1 in C1.
  pose proof (compose_cases w2 req) as C2. rewrite Hc2 in C2.
  destruct C1 as [_ C1]. destruct C2 as [_ C2].
  pose proof (compose_run w1 req) as R1. rewrite Hc1 in R1.
  pose proof (compose_run w2 req) as R2. rewrite Hc2 in R2.
  destruct R1 as (_ & ips1 & aps1 & -> & He1 & Ha1).
  destruct R2 as (_ & ips2 & aps2 & -> & He2 & Ha2).
  destruct (embedded_same_shape _ _ _ _ _ _ _ _ He1 He2) as (En & Ec & Ed).
  destruct (attached_same_shape _ _ _ _ _ _ _ Ha1 Ha2) as (An & Ac & Ad).
  rewrite (c_to _ _ _ _ C1), (c_to _ _ _ _ C2),
    (c_subject _ _ _ _ C1), (c_subject _ _ _ _ C2),
    !map_app, En, Ec, Ed, An, Ac, Ad.
  pose proof (c_content _ _ _ _ C1) as T1.
  pose proof (c_content _ _ _ _ C2) as T2.
  destruct (truthy (useHtmlTemplate req)).
  - destruct T1 as (h1 & G1 & -> & ->). destruct T2 as (h2 & G2 & -> & ->).
    rewrite G1 in G2. injection G2 as <-. now repeat split.
  - destruct T1 as (b1 & B1 & -> & ->). destruct T2 as (b2 & B2 & -> & ->).
    rewrite B1 in B2. injection B2 as <-. now repeat split.
Qed.

Lemma message_independent_of_store_witness :
  exists m1 m2,
    In (EvSend m1 true) (snd (send_email all_up logo_and_report))
    /\ In (EvSend m2 true) (snd (send_email log_down logo_and_report))
    /\ html m1 = html m2
    /\ text m1 = text m2.
Proof.
  edestruct (message_independent_of_store all_up log_down logo_and_report)
    as (_ & _ & Hh & Ht & _).
  - cbv. right. right. left. reflexivity.
  - cbv. right. right. left. reflexivity.
  - do 2 eexists.
    split; [cbv; right; right; left; reflexivity|].
    split; [cbv; right; right; left; reflexivity|].
    split; [exact Hh|exact Ht].
Defined.

(** X19.  Without embedded images the preview shows what is sent: for
    a request that uses the template and has no embedded image, the
    HTML part of the delivered message is the document the preview
    route answers for the same subject and body, when no image count,
    or a count of zero, is given to it. *)
Theorem preview_shows_what_is_sent (w : World) (req : Request) (m : Msg)
    (ok : bool) (count : option Z) :
  In (EvSend m ok) (snd (send_email w req)) ->
  truthy (useHtmlTemplate req) = true ->
  keys_of (embeddedImageKeys req) = [] ->
  count = None \/ count = Some 0%Z ->
  exists h,
    html m = JStr h
    /\ PreviewEmail.preview_email
         (PreviewEmail.mkRequest (req_subject req) (req_body req) count)
       = mkResponse 200 (PJson (JObj [("html", JStr h)])).
Proof.
  intros Hs Htpl Hk Hcount.
  destruct (sent_compose w req m ok Hs) as (entry & Hc & _).
  pose proof (compose_cases w req) as C. rewrite Hc in C.
  destruct C as [_ C].
  pose proof (c_content _ _ _ _ C) as T. rewrite Htpl, Hk in T.
  destruct T as (h & G & Hh & _). cbn [List.length] in G.
  exists h. split; [assumption|].
  assert (Hv : valid req = true).
  { destruct (valid req) eqn:Hv; [reflexivity|].
    rewrite (send_email_invalid w req Hv) in Hs. destruct Hs. }
  unfold valid in Hv. apply andb_true_iff in Hv as [Hv Hb].
  apply andb_true_iff in Hv as [_ Hsub].
  unfold PreviewEmail.preview_email. cbn [PreviewEmail.req_subject
    PreviewEmail.req_body PreviewEmail.embeddedImageCount].
  rewrite Hsub, Hb. cbn [negb orb].
  replace (PreviewEmail.dummyCids count) with (image_ids 0)
    by (destruct Hcount as [-> | ->]; reflexivity).
  now rewrite G.
Qed.

Lemma preview_shows_what_is_sent_witness :
  exists m h,
    In (EvSend m true) (snd (send_email all_up hello))
    /\ html m = JStr h
    /\ PreviewEmail.preview_email
         (PreviewEmail.mkRequest (JStr "Hi") (JStr "Hello") None)
       = mkResponse 200 (PJson (JObj [("html", JStr h)])).
Proof.
  edestruct (preview_shows_what_is_sent all_up hello) with (count := @None Z)
    as (h & Hh & Hp).
  - cbv. left. reflexivity.
  - reflexivity.
  - reflexivity.
  - now left.
  - eexists. exists h.
    split; [cbv; left; reflexivity|]. split; [exact Hh|exact Hp].
Defined.

(** X20.  A key that is not a string never gets through: when
    [embeddedImageKeys] or [attachmentKeys] holds a value that is not a
    string, a request that passes validation is answered 500, and
    nothing is delivered or logged, whatever the object store answers
    for that value. *)
Theorem non_string_key_rejected (w : World) (req : Request) (key : JsVal) :
  valid req = true ->
  In key (all_keys req) ->
  (forall s, key <> JStr s) ->
  exists res,
    fst (send_email w req) = Some res
    /\ status res = 500
    /\ deliveries (snd (send_email w req)) = []
    /\ log_writes (snd (send_email w req)) = [].
Proof.
  intros Hv Hin Hkey. rewrite (send_email_run w req Hv).
  pose proof (compose_cases w req) as C.
  pose proof (compose_run w req) as R.
  destruct (compose w req []) as [[[m entry]|e] tr].
  - exfalso. destruct C as [_ C].
    pose proof (c_keys _ _ _ _ C) as Hall. rewrite Forall_forall in Hall.
    destruct (Hall key Hin) as (file & s & _ & ->). now apply (Hkey s).
  - cbn [fst snd]. eexists. split; [reflexivity|]. split; [reflexivity|].
    now apply (stopped_quiet w (all_keys req) e).
Qed.

Lemma non_string_key_rejected_witness :
  exists res,
    fst (send_email all_up
           (mkRequest (JStr "a@b.com") (JStr "Hi") (JStr "Hello")
              (Some [JStr "docs/a.pdf"; JNum 7]) None JUndef)) = Some res
    /\ status res = 500.
Proof.
  edestruct (non_string_key_rejected all_up
               (mkRequest (JStr "a@b.com") (JStr "Hi") (JStr "Hello")
                  (Some [JStr "docs/a.pdf"; JNum 7]) None JUndef) (JNum 7))
    as (res & Hr & Hs & _).
  - reflexivity.
  - right. left. reflexivity.
  - discriminate.
  - exists res. now split.
Defined.

End SendExtras.

(* ------------------------------------------------------------------ *)
(** * Further properties of the text operations *)

Module TextExtras.
Import Text TextFacts.

Lemma split_cons (c : ascii) (s : string) :
  split "/" (String c s)
  = if Ascii.eqb c "/" then EmptyString :: split "/" s
    else match split "/" s with
         | [] => [String c EmptyString]
         | seg :: segs => String c seg :: segs
         end.
Proof. reflexivity. Qed.

Lemma mem_cons (c d : ascii) (s : string) :
  mem c (String d s) = Ascii.eqb c d || mem c s.
Proof. reflexivity. Qed.

(** The segments of a key: the first has no [/]; when it is the only
    one it is the key; otherwise the key ends with the last one, right
    after a [/]. *)
Lemma split_shape (s : string) :
  exists seg segs,
    split "/" s = seg :: segs
    /\ mem "/" seg = false
    /\ ((segs = [] /\ s = seg)
        \/ (segs <> []
            /\ mem "/" (last segs EmptyString) = false
            /\ exists dir,
                 s = (dir ++ last segs EmptyString)%string
                 /\ last_char dir = Some "/"%char)).
Proof.
  induction s as [|c s IH].
  - exists EmptyString, []. repeat split. now left.
  - destruct IH as (seg & segs & Hsplit & Hseg & Hcases).
    rewrite split_cons, Hsplit.
    destruct (Ascii.eqb_spec c "/") as [->|Hc].
    + exists EmptyString, (seg :: segs). repeat split. right.
      split; [discriminate|].
      destruct Hcases as [[-> ->]|(Hne & Hlast & dir & -> & Hdir)].
      * split; [exact Hseg|]. exists "/". now split.
      * destruct segs as [|x segs]; [congruence|].
        split; [exact Hlast|]. exists (String "/" dir). split; [reflexivity|].
        destruct dir; [discriminate|exact Hdir].
    + exists (String c seg), segs. split; [reflexivity|]. split.
      { rewrite mem_cons, Hseg, orb_false_r, Ascii.eqb_sym.
        now apply Ascii.eqb_neq. }
      destruct Hcases as [[-> ->]|(Hne & Hlast & dir & -> & Hdir)].
      * now left.
      * right. split; [assumption|]. split; [assumption|].
        exists (String c dir). split; [reflexivity|].
        destruct dir; [discriminate|exact Hdir].
Qed.

Lemma last_char_mem (c : ascii) (s : string) :
  last_char s = Some c -> mem c s = true.
Proof.
  induction s as [|d s IH]; [discriminate|].
  rewrite mem_cons. destruct s as [|e s].
  - simpl. intros H. injection H as ->. now rewrite Ascii.eqb_refl.
  - intros H. rewrite IH by exact H. apply orb_true_r.
Qed.

(** X9.  The file name taken from a key by [key.split('/').pop()] has
    no [/]; the key is that name after a possibly empty directory part
    that ends with [/]; so a key without [/] is its own file name, and
    a key that ends with [/] has the empty file name. *)
Theorem filename_is_last_segment (key : string) :
  mem "/" (pop (split "/" key)) = false
  /\ (exists dir,
         key = (dir ++ pop (split "/" key))%string
         /\ (dir = EmptyString \/ last_char dir = Some "/"%char))
  /\ (mem "/" key = false -> pop (split "/" key) = key)
  /\ (last_char key = Some "/"%char -> pop (split "/" key) = EmptyString).
Proof.
  destruct (split_shape key) as (seg & segs & Hsplit & Hseg & Hcases).
  unfold pop. rewrite Hsplit.
  destruct Hcases as [[-> ->]|(Hne & Hlast & dir & Hkey & Hdir)].
  - simpl last. split; [assumption|].
    split; [exists EmptyString; split; [reflexivity|now left]|].
    split; [reflexivity|].
    intros H. apply last_char_mem in H. congruence.
  - assert (Hl : last (seg :: segs) EmptyString = last segs EmptyString).
    { destruct segs; [congruence|reflexivity]. }
    rewrite Hl. split; [assumption|].
    split; [exists dir; split; [assumption|now right]|].
    split.
    + intros Hk. rewrite Hkey, mem_app in Hk.
      apply orb_false_iff in Hk as [Hk _].
      apply last_char_mem in Hdir. congruence.
    + intros Hk. rewrite Hkey in Hk.
      destruct (last segs EmptyString) as [|c f] eqn:Ef; [reflexivity|].
      rewrite last_char_app in Hk by discriminate.
      apply last_char_mem in Hk. congruence.
Qed.

Lemma filename_is_last_segment_witness :
  pop (split "/" "report.pdf") = "report.pdf"
  /\ pop (split "/" "docs/2024/") = "".
Proof.
  split.
  - apply (filename_is_last_segment "report.pdf"). reflexivity.
  - apply (filename_is_last_segment "docs/2024/"). reflexivity.
Defined.

Lemma replace_tags_fixes (s : string) :
  has_tag s = false -> replace_tags 0 s = s.
Proof.
  induction s as [|c s IH]; [reflexivity|].
  cbn [has_tag replace_tags].
  destruct (match_tag (String c s)); [discriminate|].
  intros H. now rewrite IH.
Qed.

(** X10.  Removing the tags changes a text exactly when it has a
    complete tag, a [<] with a [>] somewhere after it; a text without
    [<], or whose every [<] is left unclosed, is kept as it is, and
    removing twice is removing once. *)
Theorem strip_tags_fixpoint (s : string) :
  (strip_tags s = s <-> has_tag s = false)
  /\ (mem "<" s = false -> strip_tags s = s)
  /\ strip_tags (strip_tags s) = strip_tags s.
Proof.
  unfold strip_tags. split; [split|split].
  - intros H. rewrite <- H. apply replace_tags_leaves_no_tag.
  - apply replace_tags_fixes.
  - intros H. apply replace_tags_fixes.
    induction s as [|c s IH]; [reflexivity|].
    rewrite mem_cons in H. apply orb_false_iff in H as [Hc Hs].
    cbn [has_tag]. replace (match_tag (String c s)) with (@None nat).
    + now apply IH.
    + unfold match_tag.
      destruct c as [[] [] [] [] [] [] [] []]; try reflexivity.
      discriminate.
  - apply replace_tags_fixes, replace_tags_leaves_no_tag.
Qed.

Lemma strip_tags_fixpoint_witness :
  strip_tags "1 < 2, and so on" = "1 < 2, and so on".
Proof.
  destruct (strip_tags_fixpoint "1 < 2, and so on") as [[_ H] _].
  apply H. reflexivity.
Defined.

Lemma subseq_facts (b : string) :
  (forall a x, is_subseq (String x a) b = true -> is_subseq a b = true)
  /\ (forall a d, is_subseq a b = true -> is_subseq a (String d b) = true).
Proof.
  induction b as [|e b [IH1 IH2]].
  - split; [discriminate|]. intros [|x a] d H; [reflexivity|discriminate].
  - assert (H1 : forall a x, is_subseq (String x a) (String e b) = true ->
                   is_subseq a (String e b) = true).
    { intros a x H. cbn [is_subseq] in H.
      destruct (Ascii.eqb x e).
      - now apply IH2.
      - apply IH2. now apply (IH1 a x). }
    split; [exact H1|].
    intros [|x a] d H; [reflexivity|].
    change (is_subseq (String x a) (String d (String e b)))
      with (if Ascii.eqb x d then is_subseq a (String e b)
            else is_subseq (String x a) (String e b)).
    destruct (Ascii.eqb x d); [now apply (H1 a x)|exact H].
Qed.

Lemma subseq_length (b a : string) :
  is_subseq a b = true -> String.length a <= String.length b.
Proof.
  revert a. induction b as [|d b IH]; intros [|c a] H; simpl; try lia.
  - discriminate.
  - cbn [is_subseq] in H. destruct (Ascii.eqb c d).
    + apply IH in H. lia.
    + apply IH in H. simpl in H. lia.
Qed.

Lemma replace_tags_subseq (s : string) :
  forall skip, is_subseq (replace_tags skip s) s = true.
Proof.
  induction s as [|c s IH]; intros skip; [reflexivity|].
  cbn [replace_tags]. destruct skip as [|k].
  - destruct (match_tag (String c s)).
    + now apply subseq_facts.
    + cbn [is_subseq]. now rewrite Ascii.eqb_refl.
  - now apply subseq_facts.
Qed.

(** X11.  Removing the tags only drops characters: what is left is the
    characters of the input that were kept, in their order, and is
    never longer than the input. *)
Theorem strip_tags_only_drops (s : string) :
  is_subseq (strip_tags s) s = true
  /\ String.length (strip_tags s) <= String.length s.
Proof.
  split; [apply replace_tags_subseq|].
  apply subseq_length, replace_tags_subseq.
Qed.

End TextExtras.

(* ------------------------------------------------------------------ *)
(** * Further properties of the renderer and of the preview *)

Module RenderExtras.
Import Text TextFacts Render RenderFacts Occurrences PreviewEmail.

Lemma prefix_app_self (n post : string) : prefix n (n ++ post) = true.
Proof.
  induction n as [|c n IH]; [now destruct post|].
  change (prefix (String c n) (String c (n ++ post)) = true).
  now rewrite prefix_cons, Ascii.eqb_refl.
Qed.

Lemma includes_cons (n : string) (c : ascii) (s : string) :
  includes n (String c s) = prefix n (String c s) || includes n s.
Proof. reflexivity. Qed.

Lemma includes_app_r (n a b : string) :
  includes n b = true -> includes n (a ++ b) = true.
Proof.
  intros H. induction a as [|c a IH]; [exact H|].
  change (includes n (String c (a ++ b)) = true).
  rewrite includes_cons, IH. apply orb_true_r.
Qed.

Lemma prefix_app_mono (n x y : string) :
  prefix n x = true -> prefix n (x ++ y) = true.
Proof.
  revert x. induction n as [|c n IH]; intros x H; [now destruct (x ++ y)%string|].
  destruct x as [|d x]; [discriminate|].
  change (prefix (String c n) (String d (x ++ y)) = true).
  rewrite prefix_cons in *. apply andb_true_iff in H as [-> H].
  now apply IH.
Qed.

Lemma includes_app_l (n a b : string) :
  includes n a = true -> includes n (a ++ b) = true.
Proof.
  induction a as [|c a IH]; intros H.
  - unfold includes in H. rewrite orb_false_r in H.
    destruct n; [now destruct b|discriminate].
  - change (includes n (String c (a ++ b)) = true).
    rewrite includes_cons in *. apply orb_true_iff in H as [H|H].
    + change (String c (a ++ b)) with (String c a ++ b)%string.
      now rewrite prefix_app_mono.
    + rewrite IH by exact H. apply orb_true_r.
Qed.

Lemma includes_app_self (n post : string) : includes n (n ++ post) = true.
Proof.
  destruct n as [|c n].
  - destruct post; reflexivity.
  - change (includes (String c n) (String c (n ++ post)) = true).
    rewrite includes_cons.
    change (String c (n ++ post)) with (String c n ++ post)%string.
    now rewrite prefix_app_self.
Qed.

Lemma includes_middle (n pre post : string) :
  includes n (pre ++ n ++ post) = true.
Proof. apply includes_app_r, includes_app_self. Qed.

Lemma imageHtml_includes (cid : string) (cids : list string) :
  In cid cids -> includes (src_value cid) (imageHtml cids) = true.
Proof.
  induction cids as [|c cids IH]; intros H; [destruct H|].
  rewrite imageHtml_cons. destruct H as [->|H].
  - rewrite image_block_split, !append_assoc. apply includes_middle.
  - apply includes_app_r. now apply IH.
Qed.

(** X12.  The renderer escapes nothing: the subject and the body, as
    converted to strings, are in the document as they are, markup
    included, and so is the quoted reference ["cid:<id>"] of every
    content-id it was given. *)
Theorem interpolated_verbatim (subject body : JsVal) (cids : list string)
    (h : string) :
  generateHTMLEmail subject body cids = Some h ->
  exists s b,
    to_string subject = Some s
    /\ to_string body = Some b
    /\ includes s h = true
    /\ includes b h = true
    /\ forall cid, In cid cids -> includes (src_value cid) h = true.
Proof.
  unfold generateHTMLEmail.
  destruct (to_string subject) as [s|]; [|discriminate].
  destruct (to_string body) as [b|]; [|discriminate].
  intros H. injection H as <-. exists s, b.
  split; [reflexivity|]. split; [reflexivity|].
  unfold template. split; [apply includes_middle|].
  split.
  - do 4 apply includes_app_r. apply includes_middle.
  - intros cid Hin. do 7 apply includes_app_r.
    apply includes_app_l. now apply imageHtml_includes.
Qed.

Lemma interpolated_verbatim_witness :
  exists h,
    generateHTMLEmail (JStr "Hi") (JStr "<script>alert(1)</script>")
      ["image-1"] = Some h
    /\ includes "<script>alert(1)</script>" h = true.
Proof.
  eexists. split; [reflexivity|].
  edestruct (interpolated_verbatim (JStr "Hi")
               (JStr "<script>alert(1)</script>") ["image-1"])
    as (s & b & _ & Hb & _ & Hin & _); [reflexivity|].
  injection Hb as <-. exact Hin.
Defined.




End RenderExtras.

(* ------------------------------------------------------------------ *)
(** * Further properties of GET /emails *)

Module EmailsExtras.
Import Text TextFacts Regex Emails EmailsClaims RenderExtras.

Lemma emails_plain (docs : list EmailDoc) (search : option string) :
  plain_search search = true ->
  emails (Ok docs) search
  = Some (mkResponse 200
            (PDocs (sort_desc (filter (spec_filter search) docs)))).
Proof.
  intros Hq. unfold emails. now rewrite (find_plain search docs Hq).
Qed.

(** X14.  The search does not look at the letter case of the query:
    two queries without operators that differ only in the case of
    their letters get the same answer. *)
Theorem search_ignores_query_case (docs : list EmailDoc) (q q' : string) :
  plain q = true -> plain q' = true ->
  lower_string q = lower_string q' ->
  emails (Ok docs) (Some q) = emails (Ok docs) (Some q').
Proof.
  intros Hq Hq' Hl.
  rewrite (emails_plain docs (Some q) Hq), (emails_plain docs (Some q') Hq').
  do 4 f_equal. apply filter_ext. intros d.
  unfold spec_filter, spec_selects, contains_ci. now rewrite Hl.
Qed.

Lemma search_ignores_query_case_witness :
  emails (Ok [Examples.older_doc; Examples.plain_doc]) (Some "hello")
  = emails (Ok [Examples.older_doc; Examples.plain_doc]) (Some "HeLLo").
Proof.
  apply search_ignores_query_case; reflexivity.
Defined.

Lemma sort_desc_incl (l : list EmailDoc) (d : EmailDoc) :
  In d (sort_desc l) -> In d l.
Proof. apply Permutation_in, sort_desc_perm. Qed.

(** The handler of the regular-expression model is the handler over
    an engine, for every engine that agrees with the model on the
    patterns the model covers. *)
Lemma emails_with_agrees (engine : Engine)
    (collection : Result (list EmailDoc)) (search : option string)
    (res : Response) :
  (forall pattern atoms,
      parse pattern = Some atoms -> engine pattern = Ok (Regex.search atoms)) ->
  emails collection search = Some res ->
  emails_with engine collection search = res.
Proof.
  intros Hagree. unfold emails, emails_with, find.
  destruct collection as [docs|error]; [|now intros [= <-]].
  destruct (build_query search) as [|rt rs rb]; [now intros [= <-]|].
  cbn [compile compile_with].
  destruct (parse rt) as [at_|] eqn:Et; [|discriminate].
  destruct (parse rs) as [as_|] eqn:Es; [|discriminate].
  destruct (parse rb) as [ab|] eqn:Eb; [|discriminate].
  rewrite (Hagree _ _ Et), (Hagree _ _ Es), (Hagree _ _ Eb).
  now intros [= <-].
Qed.


Lemma prefix_split (n s : string) :
  prefix n s = true -> exists post, s = (n ++ post)%string.
Proof.
  revert s. induction n as [|c n IH]; intros s H; [now exists s|].
  destruct s as [|d s]; [discriminate|].
  rewrite prefix_cons in H. apply andb_true_iff in H as [Hc H].
  apply Ascii.eqb_eq in Hc. subst d.
  destruct (IH s H) as (post & ->). now exists post.
Qed.

Lemma includes_split (n s : string) :
  includes n s = true -> exists pre post, s = (pre ++ n ++ post)%string.
Proof.
  induction s as [|c s IH].
  - unfold includes. rewrite orb_false_r. intros H.
    destruct (prefix_split n "" H) as (post & Hp). now exists "", post.
  - rewrite includes_cons. intros H. apply orb_true_iff in H as [H|H].
    + destruct (prefix_split n _ H) as (post & Hp). now exists "", post.
    + destruct (IH H) as (pre & post & ->). now exists (String c pre), post.
Qed.

Lemma includes_trans (a b c : string) :
  includes a b = true -> includes b c = true -> includes a c = true.
Proof.
  intros Hab Hbc.
  destruct (includes_split a b Hab) as (pre & post & ->).
  destruct (includes_split _ c Hbc) as (pre' & post' & ->).
  rewrite !append_assoc, <- (append_assoc pre' pre).
  apply includes_middle.
Qed.

(** X16.  A longer query narrows the search: when a query without
    operators occurs, letter case apart, in another one, every document
    returned for the longer one is returned for the shorter one. *)
Theorem longer_query_narrows (docs : list EmailDoc) (q q' : string)
    (found found' : list EmailDoc) :
  plain q = true -> plain q' = true ->
  contains_ci q q' = true ->
  emails (Ok docs) (Some q) = Some (mkResponse 200 (PDocs found)) ->
  emails (Ok docs) (Some q') = Some (mkResponse 200 (PDocs found')) ->
  incl found' found.
Proof.
  intros Hq Hq' Hsub E E'.
  rewrite (emails_plain docs (Some q) Hq) in E.
  rewrite (emails_plain docs (Some q') Hq') in E'.
  injection E as <-. injection E' as <-.
  intros d Hd. apply sort_desc_incl, filter_In in Hd as [Hin Hsel].
  apply (Permutation_in d (Permutation_sym (sort_desc_perm _))).
  apply filter_In. split; [assumption|].
  unfold spec_filter, spec_selects, contains_ci in *.
  repeat (apply orb_true_iff in Hsel as [Hsel|Hsel]);
    rewrite (includes_trans _ _ _ Hsub Hsel), ?orb_true_r; reflexivity.
Qed.

Lemma longer_query_narrows_witness :
  incl [Examples.older_doc] [Examples.plain_doc; Examples.older_doc].
Proof.
  apply (longer_query_narrows [Examples.older_doc; Examples.plain_doc]
           "hello" "the HELLO file"); reflexivity.
Defined.

End EmailsExtras.

(* ------------------------------------------------------------------ *)
(** * Further properties of the base64 text of an object *)

Module EncodingExtras.
Import Text TextExtras.

Lemma get_mem (s : string) :
  forall i c, get i s = Some c -> mem c s = true.
Proof.
  induction s as [|d s IH]; intros [|i] c H; try discriminate.
  - simpl in H. injection H as ->. now rewrite mem_cons, Ascii.eqb_refl.
  - rewrite mem_cons, (IH i c H). apply orb_true_r.
Qed.

Lemma get_in_range (s : string) :
  forall i, i < String.length s -> exists c, get i s = Some c.
Proof.
  induction s as [|d s IH]; intros i H; simpl in H; [lia|].
  destruct i as [|i]; [now exists d|]. apply IH. lia.
Qed.

Lemma b64_digit_alphabet (n : N) : mem (b64_digit n) b64_alphabet = true.
Proof.
  unfold b64_digit.
  destruct (get_in_range b64_alphabet (N.to_nat (n mod 64))) as (c & Hc).
  - change (String.length b64_alphabet) with (N.to_nat 64).
    pose proof (N.mod_upper_bound n 64). lia.
  - rewrite Hc. now apply (get_mem _ _ _ Hc).
Qed.

Lemma base64_shape_upto (n : nat) :
  forall bytes, String.length bytes <= n ->
    String.length (base64 bytes) = 4 * ((String.length bytes + 2) / 3)
    /\ all_chars b64_char (base64 bytes) = true.
Proof.
  induction n as [n IH] using lt_wf_ind. intros bytes Hn.
  destruct bytes as [|a [|b [|c rest]]].
  - now split.
  - split; [reflexivity|]. cbn [base64 all_chars]. unfold b64_char.
    now rewrite !b64_digit_alphabet.
  - split; [reflexivity|]. cbn [base64 all_chars]. unfold b64_char.
    now rewrite !b64_digit_alphabet.
  - simpl in Hn. destruct (IH (String.length rest)) with (bytes := rest)
      as [Hlen Hall]; [lia|lia|].
    split.
    + cbn [base64 String.length]. rewrite Hlen.
      replace (S (S (S (String.length rest))) + 2)
        with (1 * 3 + (String.length rest + 2)) by lia.
      rewrite Nat.div_add_l by lia. lia.
    + cbn [base64 all_chars]. unfold b64_char at 1 2 3 4.
      now rewrite !b64_digit_alphabet, Hall.
Qed.

(** X17.  The base64 text of an object of n bytes has four characters
    for every three bytes, the last group being padded: 4 * ceil(n/3)
    characters, all of them of the base64 alphabet or [=]. *)
Theorem base64_shape (bytes : string) :
  String.length (base64 bytes) = 4 * ((String.length bytes + 2) / 3)
  /\ all_chars b64_char (base64 bytes) = true.
Proof. now apply (base64_shape_upto (String.length bytes)). Qed.

End EncodingExtras.
